(** * RingBuffer: the single producer / single consumer ring buffer of
      include/ringbuffer.h

    The class template [RingBuffer<T, capacity>] is embedded as a record
    with the three data members of the class and one Rocq function per member
    function.  [size_t] values are integers with the wrap-around modulo
    [2 ^ size_bits] written out, the array [data[capacity]] is a list that is
    read and updated by index, and an access outside the array (which has no
    defined behaviour in C++) makes the operation return [None]. *)

From Stdlib Require Import ZArith Lia.
From stdpp Require Import base option list.

Local Open Scope Z_scope.

(** * LinBus: the checksum, the protected identifier and the frames of
      src/linbus.cpp

    [uint8_t] and [uint16_t] values are integers with the conversion to the
    type written out, a [uint8_t*] is the list of the bytes it points to, and
    a read or a write outside that list makes the function return [None].
    The calls into libopencm3 and the writes to the registers of the USART
    are kept, in the order of the source, as a list of [hw_call]. *)

(** Conversion to [uint8_t] and to [uint16_t]. *)
Definition uint8_t (x : Z) : Z := x mod 2 ^ 8.

Definition uint16_t (x : Z) : Z := x mod 2 ^ 16.

(** Conversion to [int], which has 32 bits on the STM32. *)
Definition int (x : Z) : Z := (x + 2 ^ 31) mod 2 ^ 32 - 2 ^ 31.

(** [buf[idx]] read; [None] outside the array. *)
Definition byte_at (buf : list Z) (idx : Z) : option Z :=
  if (0 <=? idx) && (idx <? Z.of_nat (length buf))
  then buf !! Z.to_nat idx
  else None.

(** [buf[idx] = b]; [None] outside the array. *)
Definition put (buf : list Z) (idx : Z) (b : Z) : option (list Z) :=
  if (0 <=? idx) && (idx <? Z.of_nat (length buf))
  then Some (<[Z.to_nat idx := uint8_t b]> buf)
  else None.

(** [uint8_t LinBus::Parity(uint8_t id)] *)
Definition Parity (id : Z) : Z :=
  let p1 :=
    negb (xorb (xorb (xorb (Z.land id 0x2 >? 0) (Z.land id 0x8 >? 0))
                     (Z.land id 0x10 >? 0))
               (Z.land id 0x20 >? 0)) in
  let p0 :=
    xorb (xorb (xorb (Z.land id 0x1 >? 0) (Z.land id 0x2 >? 0))
               (Z.land id 0x4 >? 0))
         (Z.land id 0x10 >? 0) in
  uint8_t (Z.lor (Z.lor id (Z.shiftl (Z.b2z p1) 7)) (Z.shiftl (Z.b2z p0) 6)).

(** The body of the loop of [Checksum]:
    [tmp = (uint16_t)checksum + (uint16_t)data[i];
     if (tmp >= 256) tmp -= 255;  checksum = tmp;] *)
Definition Checksum_step (checksum d : Z) : Z :=
  let tmp := uint16_t (uint16_t checksum + uint16_t d) in
  let tmp := if 256 <=? tmp then uint16_t (tmp - 255) else tmp in
  uint8_t tmp.

(** [for (int i = 0; i < len; i++)], with [n] iterations left. *)
Fixpoint Checksum_loop (checksum : Z) (data : list Z) (i : Z) (n : nat) : option Z :=
  match n with
  | O => Some checksum
  | S n' =>
      match byte_at data i with
      | Some d => Checksum_loop (Checksum_step checksum d) data (i + 1) n'
      | None => None
      end
  end.

(** [uint8_t LinBus::Checksum(uint8_t pid, uint8_t* data, int len)] *)
Definition Checksum (pid : Z) (data : list Z) (len : Z) : option Z :=
  match Checksum_loop pid data 0 (Z.to_nat len) with
  | Some checksum => Some (uint8_t (Z.lxor checksum 0xff))
  | None => None
  end.

(** The two DMA channels of UART4 and the accesses to the hardware that
    [Request] makes. *)
Inductive dma_channel : Type := DMA_CHANNEL3 | DMA_CHANNEL5.

Inductive hw_call : Type :=
| dma_disable_channel (channel : dma_channel)
| dma_set_number_of_data (channel : dma_channel) (number : Z)
| dma_set_memory_address_recvBuffer (channel : dma_channel)
| dma_clear_interrupt_flags_TCIF (channel : dma_channel)
| UART4_CR1_set_SBK
| dma_enable_channel (channel : dma_channel).

(** [for (uint8_t i = 0; i < len; i++) sendBuffer[i + 2] = data[i];] with
    [n] iterations left. *)
Fixpoint copy_payload (sendBuffer data : list Z) (i : Z) (n : nat) : option (list Z) :=
  match n with
  | O => Some sendBuffer
  | S n' =>
      match byte_at data i with
      | Some d =>
          match put sendBuffer (i + 2) d with
          | Some b => copy_payload b data (uint8_t (i + 1)) n'
          | None => None
          end
      | None => None
      end
  end.

(** [void LinBus::Request(uint8_t id, uint8_t* data, uint8_t len)]:
    [sendBuffer] after the call and the accesses to the hardware, in order.
    [sizeof_recvBuffer] is the size of the member [recvBuffer], which
    linbus.h declares. *)
Definition Request (sizeof_recvBuffer : Z) (id : Z) (data : list Z) (len : Z)
    (sendBuffer : list Z) : option (list Z * list hw_call) :=
  let sendLen := if len =? 0 then 2 else len + 3 in
  if len >? 8 then Some (sendBuffer, [])
  else
    b0 ← put sendBuffer 0 0x55;
    b1 ← put b0 1 (Parity id);
    b2 ← copy_payload b1 data 0 (Z.to_nat len);
    pid ← byte_at b2 1;
    checksum ← Checksum pid data len;
    b3 ← put b2 (len + 2) checksum;
    Some (b3,
          [dma_disable_channel DMA_CHANNEL5;
           dma_set_number_of_data DMA_CHANNEL5 sendLen;
           dma_disable_channel DMA_CHANNEL3;
           dma_set_memory_address_recvBuffer DMA_CHANNEL3;
           dma_set_number_of_data DMA_CHANNEL3 sizeof_recvBuffer;
           dma_clear_interrupt_flags_TCIF DMA_CHANNEL5;
           UART4_CR1_set_SBK;
           dma_enable_channel DMA_CHANNEL5;
           dma_enable_channel DMA_CHANNEL3]).

(** [bool LinBus::HasReceived(uint8_t id, uint8_t requiredLen)].
    [payloadIndex] and [pidIndex] are the constants of linbus.h, [recvBuffer]
    is the member the DMA has written to, and [numRcvd] is what
    [dma_get_number_of_data(DMA2, DMA_CHANNEL3)] returns. *)
Definition HasReceived (payloadIndex pidIndex : Z) (recvBuffer : list Z)
    (numRcvd : Z) (id requiredLen : Z) : option bool :=
  let receiveIdx := int (Z.of_nat (length recvBuffer) - numRcvd) in
  if requiredLen >? 8 then Some false
  else
    let pid := Parity id in
    if receiveIdx =? requiredLen + payloadIndex + 1 then
      b ← byte_at recvBuffer pidIndex;
      if b =? pid then
        checksum ← Checksum b (drop (Z.to_nat payloadIndex) recvBuffer) requiredLen;
        last ← byte_at recvBuffer (requiredLen + payloadIndex);
        Some (checksum =? last)
      else Some false
    else Some false.

(** The sum of the bytes of a list, and the sum [S] of a protected
    identifier and of bytes folded to one byte with the carry added back:
    zero for [S = 0] and otherwise the value in 1..255 congruent to [S]
    modulo 255. *)
Definition byte_sum (l : list Z) : Z := foldr Z.add 0 l.

Definition end_around_carry (S : Z) : Z :=
  if S =? 0 then 0 else (S - 1) mod 255 + 1.

(** The bytes [Request] hands to the DMA: the first [sendLen] bytes of
    [sendBuffer], which is where the constructor points the channel
    (line 72). *)
Definition transmitted (sendBuffer : list Z) (calls : list hw_call) : list Z :=
  match calls with
  | _ :: dma_set_number_of_data DMA_CHANNEL5 sendLen :: _ =>
      take (Z.to_nat sendLen) sendBuffer
  | _ => []
  end.

Section RingBuffer.

(** [typename T]: the type of the items. *)
Context {T : Type}.

(** The width in bits of [size_t] on the target (32 on the Cortex-M3 the
    library is written for, 64 on the host the unit tests run on). *)
Variable size_bits : Z.

(** [size_t capacity]: the second template parameter. *)
Variable capacity : Z.

(** The result of an arithmetic operation in the type [size_t]. *)
Definition size_t (x : Z) : Z := x mod 2 ^ size_bits.

(** The largest size of an object: [PTRDIFF_MAX].  The member
    [data[capacity]] is an object, so an instantiation that compiles has
    [capacity <= PTRDIFF_MAX]. *)
Definition PTRDIFF_MAX : Z := 2 ^ (size_bits - 1) - 1.

(** The data members.  In the source [tail] is the index [Push] writes at
    and [head] the index [Pop] reads at. *)
Record RingBuffer : Type := mkRingBuffer {
  data : list T;
  head : Z;
  tail : Z
}.

(** [data[idx]] read by [memcpy]; [None] outside the array. *)
Definition load (d : list T) (idx : Z) : option T :=
  if (0 <=? idx) && (idx <? Z.of_nat (length d))
  then d !! Z.to_nat idx
  else None.

(** [data[idx]] written by [memcpy]; [None] outside the array. *)
Definition store (d : list T) (idx : Z) (item : T) : option (list T) :=
  if (0 <=? idx) && (idx <? Z.of_nat (length d))
  then Some (<[Z.to_nat idx := item]> d)
  else None.

(** [RingBuffer() : head(0), tail(0)].  The constructor does not initialise
    [data]: slot [i] starts with an indeterminate value, [indeterminate i]. *)
Definition RingBuffer_ctor (indeterminate : nat -> T) : RingBuffer :=
  {| data := indeterminate <$> seq 0 (Z.to_nat capacity);
     head := 0;
     tail := 0 |}.

(** [void Reset()] *)
Definition Reset (rb : RingBuffer) : RingBuffer :=
  {| data := data rb; head := 0; tail := 0 |}.

(** [size_t increment(size_t idx) const] *)
Definition increment (idx : Z) : Z := size_t (idx + 1) mod capacity.

(** [bool Push(const value_type& item)]: the returned flag and the buffer
    after the call. *)
Definition Push (item : T) (rb : RingBuffer) : option (bool * RingBuffer) :=
  let current_tail := tail rb in
  let next_tail := increment current_tail in
  if negb (next_tail =? head rb) then
    match store (data rb) current_tail item with
    | Some d => Some (true, {| data := d; head := head rb; tail := next_tail |})
    | None => None
    end
  else Some (false, rb).

(** [bool Pop(value_type& item)]: [item] is the value the caller's variable
    holds before the call; the result is the returned flag, the value the
    variable holds after the call and the buffer after the call. *)
Definition Pop (item : T) (rb : RingBuffer) : option (bool * T * RingBuffer) :=
  let current_head := head rb in
  if current_head =? tail rb then Some (false, item, rb)
  else
    match load (data rb) current_head with
    | Some v =>
        Some (true, v,
              {| data := data rb; head := increment current_head; tail := tail rb |})
    | None => None
    end.

(** [size_t Size() const]: both the subtraction and the addition are done
    in [size_t]. *)
Definition Size (rb : RingBuffer) : Z :=
  size_t (size_t (tail rb - head rb) + capacity) mod capacity.

(** [bool IsEmpty() const] *)
Definition IsEmpty (rb : RingBuffer) : bool := head rb =? tail rb.

(** [bool IsFull() const] *)
Definition IsFull (rb : RingBuffer) : bool := increment (tail rb) =? head rb.

(** ** Sequences of calls *)

(** One call made by the user of the buffer.  [CallPop item] is a call of
    [Pop] on a variable that holds [item]. *)
Inductive call : Type :=
| CallPush (item : T)
| CallPop (item : T)
| CallReset.

(** A buffer together with the values its [Push] calls have accepted and
    the values its [Pop] calls have delivered so far, oldest first. *)
Record history : Type := mkHistory {
  buffer : RingBuffer;
  accepted : list T;
  delivered : list T
}.

Definition do_call (c : call) (h : history) : option history :=
  match c with
  | CallPush item =>
      match Push item (buffer h) with
      | Some (true, rb) => Some (mkHistory rb (accepted h ++ [item]) (delivered h))
      | Some (false, rb) => Some (mkHistory rb (accepted h) (delivered h))
      | None => None
      end
  | CallPop item =>
      match Pop item (buffer h) with
      | Some (true, v, rb) => Some (mkHistory rb (accepted h) (delivered h ++ [v]))
      | Some (false, _, rb) => Some (mkHistory rb (accepted h) (delivered h))
      | None => None
      end
  | CallReset => Some (mkHistory (Reset (buffer h)) (accepted h) (delivered h))
  end.

Fixpoint run (cs : list call) (h : history) : option history :=
  match cs with
  | [] => Some h
  | c :: cs' =>
      match do_call c h with
      | Some h' => run cs' h'
      | None => None
      end
  end.

(** The history of a buffer that has just been constructed. *)
Definition fresh (indeterminate : nat -> T) : history :=
  mkHistory (RingBuffer_ctor indeterminate) [] [].

(** [true] when the sequence has calls of [Push] and [Pop] only. *)
Definition is_transfer (c : call) : bool :=
  match c with
  | CallReset => false
  | _ => true
  end.

(** ** The stored values *)

(** The number of slots from index [from] up to index [to], walking in the
    direction [increment] does. *)
Definition distance (from to : Z) : Z := (to - from) mod capacity.

(** The values of [n] consecutive slots, from slot [from] on. *)
Fixpoint slots_from (d : list T) (from : Z) (n : nat) : list T :=
  match n with
  | O => []
  | S n' =>
      match load d from with
      | Some v => v :: slots_from d (increment from) n'
      | None => []
      end
  end.

(** The values that are stored and not yet read: the slots from the read
    index [head] up to the write index [tail]. *)
Definition contents (rb : RingBuffer) : list T :=
  slots_from (data rb) (head rb) (Z.to_nat (distance (head rb) (tail rb))).

(** Both indices are indices of [data[capacity]]. *)
Definition in_range (rb : RingBuffer) : Prop :=
  length (data rb) = Z.to_nat capacity /\
  0 <= head rb < capacity /\
  0 <= tail rb < capacity.

(** ** The producer and the consumer as two contexts

    [Push] is called from one context and [Pop] from another that can
    interrupt it (or be interrupted by it) between any two accesses to the
    members.  Each call is cut at its accesses to [data], [head] and [tail],
    in the order of the statements of the source, and the two contexts take
    their steps in any order.  A [memcpy] is entered in one step and has
    copied the whole item when it returns in a later step.

    That each access takes effect when its statement is reached is what this
    machine assumes, not something it shows of the compiled code: the two
    [memcpy] calls reach [data] through a cast to a pointer to [void], which
    drops [volatile], so the language does not order the copy against the
    assignment to the volatile index. *)

(** Where the producer is in [Push]; [item], [current_tail] and [next_tail]
    are the parameter and the locals of the call. *)
Inductive push_pc : Type :=
| ProducerIdle
| PushTest (item : T) (current_tail next_tail : Z)
| PushMemcpy (item : T) (current_tail next_tail : Z)
| PushCopying (item : T) (current_tail next_tail : Z)
| PushPublish (item : T) (current_tail next_tail : Z).

(** Where the consumer is in [Pop]; [current_head] is the local of the call
    and [item] the value copied to the caller's variable. *)
Inductive pop_pc : Type :=
| ConsumerIdle
| PopTest (current_head : Z)
| PopMemcpy (current_head : Z)
| PopCopying (current_head : Z)
| PopPublish (item : T) (current_head : Z).

(** The shared buffer with the record of what was accepted and delivered,
    the two contexts, and the items the producer is still going to push. *)
Record system : Type := mkSystem {
  shared : history;
  producer : push_pc;
  script : list T;
  consumer : pop_pc
}.

Inductive context : Type := Producer | Consumer.

(** The next step of the producer: lines 68 to 78 of [Push]. *)
Definition producer_step (s : system) : option system :=
  let h := shared s in
  let rb := buffer h in
  match producer s with
  | ProducerIdle =>
      match script s with
      | [] => Some s
      | item :: rest =>
          (* const size_t current_tail = tail;
             const size_t next_tail = increment(current_tail); *)
          let current_tail := tail rb in
          let next_tail := increment current_tail in
          Some (mkSystem h (PushTest item current_tail next_tail) rest (consumer s))
      end
  | PushTest item current_tail next_tail =>
      (* if (next_tail != head) ... return false; *)
      if negb (next_tail =? head rb)
      then Some (mkSystem h (PushMemcpy item current_tail next_tail) (script s) (consumer s))
      else Some (mkSystem h ProducerIdle (script s) (consumer s))
  | PushMemcpy item current_tail next_tail =>
      (* memcpy(&data[current_tail], &item, sizeof(value_type)) is entered *)
      Some (mkSystem h (PushCopying item current_tail next_tail) (script s) (consumer s))
  | PushCopying item current_tail next_tail =>
      (* memcpy has written the whole item and returns *)
      match store (data rb) current_tail item with
      | Some d =>
          Some (mkSystem
                  (mkHistory (mkRingBuffer d (head rb) (tail rb)) (accepted h) (delivered h))
                  (PushPublish item current_tail next_tail) (script s) (consumer s))
      | None => None
      end
  | PushPublish item current_tail next_tail =>
      (* tail = next_tail; return true; *)
      Some (mkSystem
              (mkHistory (mkRingBuffer (data rb) (head rb) next_tail)
                         (accepted h ++ [item]) (delivered h))
              ProducerIdle (script s) (consumer s))
  end.

(** The next step of the consumer: lines 88 to 97 of [Pop]. *)
Definition consumer_step (s : system) : option system :=
  let h := shared s in
  let rb := buffer h in
  match consumer s with
  | ConsumerIdle =>
      (* const size_t current_head = head; *)
      Some (mkSystem h (producer s) (script s) (PopTest (head rb)))
  | PopTest current_head =>
      (* if (current_head == tail) return false; *)
      if current_head =? tail rb
      then Some (mkSystem h (producer s) (script s) ConsumerIdle)
      else Some (mkSystem h (producer s) (script s) (PopMemcpy current_head))
  | PopMemcpy current_head =>
      (* memcpy(&item, &data[current_head], sizeof(value_type)) is entered *)
      Some (mkSystem h (producer s) (script s) (PopCopying current_head))
  | PopCopying current_head =>
      (* memcpy has read the whole item and returns *)
      match load (data rb) current_head with
      | Some v => Some (mkSystem h (producer s) (script s) (PopPublish v current_head))
      | None => None
      end
  | PopPublish item current_head =>
      (* head = increment(current_head); return true; *)
      Some (mkSystem
              (mkHistory (mkRingBuffer (data rb) (increment current_head) (tail rb))
                         (accepted h) (delivered h ++ [item]))
              (producer s) (script s) ConsumerIdle)
  end.

(** One step of the context that is scheduled. *)
Definition context_step (c : context) (s : system) : option system :=
  match c with
  | Producer => producer_step s
  | Consumer => consumer_step s
  end.

(** The steps of a schedule, one after the other. *)
Fixpoint interleave (schedule : list context) (s : system) : option system :=
  match schedule with
  | [] => Some s
  | c :: schedule' =>
      match context_step c s with
      | Some s' => interleave schedule' s'
      | None => None
      end
  end.

(** A buffer that has just been constructed, no call under way, and a
    producer that is going to push [items]. *)
Definition power_on (indeterminate : nat -> T) (items : list T) : system :=
  mkSystem (fresh indeterminate) ProducerIdle items ConsumerIdle.

(** The slot the producer's [memcpy] is writing, if it is inside one. *)
Definition slot_being_written (s : system) : option Z :=
  match producer s with
  | PushCopying _ current_tail _ => Some current_tail
  | _ => None
  end.

(** The slot the consumer's [memcpy] is reading, if it is inside one. *)
Definition slot_being_read (s : system) : option Z :=
  match consumer s with
  | PopCopying current_head => Some current_head
  | _ => None
  end.

(** ** What holds of the buffer between and during the calls *)

(** Every accepted value has been delivered or is still stored, and the
    stored values are the ones accepted last, oldest first. *)
Definition fifo (h : history) : Prop :=
  accepted h = delivered h ++ contents (buffer h).

(** What the locals of a [Push] under way are, in terms of the members. *)
Definition producer_ok (s : system) : Prop :=
  let rb := buffer (shared s) in
  match producer s with
  | ProducerIdle => True
  | PushTest _ current_tail next_tail =>
      current_tail = tail rb /\ next_tail = increment current_tail
  | PushMemcpy _ current_tail next_tail
  | PushCopying _ current_tail next_tail =>
      current_tail = tail rb /\ next_tail = increment current_tail /\
      next_tail <> head rb
  | PushPublish item current_tail next_tail =>
      current_tail = tail rb /\ next_tail = increment current_tail /\
      next_tail <> head rb /\ load (data rb) current_tail = Some item
  end.

(** What the locals of a [Pop] under way are, in terms of the members. *)
Definition consumer_ok (s : system) : Prop :=
  let rb := buffer (shared s) in
  match consumer s with
  | ConsumerIdle => True
  | PopTest current_head => current_head = head rb
  | PopMemcpy current_head
  | PopCopying current_head =>
      current_head = head rb /\ current_head <> tail rb
  | PopPublish item current_head =>
      current_head = head rb /\ current_head <> tail rb /\
      load (data rb) current_head = Some item
  end.

Definition system_ok (s : system) : Prop :=
  in_range (buffer (shared s)) /\ fifo (shared s) /\
  producer_ok s /\ consumer_ok s.

(** The buffer [h] of calls made one after the other that a state of the
    two contexts corresponds to: the same indices and the same accepted and
    delivered values, and the same slots, except that an item the producer
    has copied and not yet published is not in its slot yet. *)
Definition linearized (s : system) (h : history) : Prop :=
  accepted h = accepted (shared s) /\
  delivered h = delivered (shared s) /\
  head (buffer h) = head (buffer (shared s)) /\
  tail (buffer h) = tail (buffer (shared s)) /\
  match producer s with
  | PushPublish item current_tail _ =>
      store (data (buffer h)) current_tail item = Some (data (buffer (shared s)))
  | _ => data (buffer h) = data (buffer (shared s))
  end.

(** * Properties *)

(** ** Index arithmetic *)

Lemma size_t_small (x : Z) : 0 <= x < 2 ^ size_bits -> size_t x = x.
Proof. apply Z.mod_small. Qed.

Lemma increment_range (idx : Z) : 0 < capacity -> 0 <= increment idx < capacity.
Proof. intros Hc. apply Z.mod_pos_bound. exact Hc. Qed.

Lemma increment_cases (idx : Z) :
  0 < capacity < 2 ^ size_bits ->
  0 <= idx < capacity ->
  (idx + 1 < capacity /\ increment idx = idx + 1) \/
  (idx + 1 = capacity /\ increment idx = 0).
Proof.
  intros Hc Hi. unfold increment.
  rewrite size_t_small by lia.
  destruct (Z.eq_dec (idx + 1) capacity) as [E | E].
  - right. split; [exact E |]. rewrite E. apply Z_mod_same_full.
  - left. split; [lia |]. apply Z.mod_small. lia.
Qed.

Lemma distance_cases (from to : Z) :
  0 <= from < capacity ->
  0 <= to < capacity ->
  (from <= to /\ distance from to = to - from) \/
  (to < from /\ distance from to = to - from + capacity).
Proof.
  intros Hf Ht. unfold distance.
  destruct (Z_le_gt_dec from to) as [L | G].
  - left. split; [exact L |]. apply Z.mod_small. lia.
  - right. split; [lia |]. symmetry.
    apply Z.mod_unique with (q := -1); lia.
Qed.

Lemma object_size_limit :
  0 < capacity <= PTRDIFF_MAX -> 2 * capacity < 2 ^ size_bits.
Proof.
  unfold PTRDIFF_MAX. intros Hc.
  destruct (Z_lt_le_dec (size_bits - 1) 0) as [Neg | Pos].
  - rewrite Z.pow_neg_r in Hc by exact Neg. lia.
  - assert (E : 2 ^ size_bits = 2 * 2 ^ (size_bits - 1)).
    { rewrite <- Z.pow_succ_r by exact Pos. f_equal. lia. }
    lia.
Qed.

(** The [size_t] computation of [Size] gives the distance from the read
    index to the write index. *)
Lemma Size_distance (rb : RingBuffer) :
  0 < capacity <= PTRDIFF_MAX ->
  0 <= head rb < capacity ->
  0 <= tail rb < capacity ->
  Size rb = distance (head rb) (tail rb).
Proof.
  intros Hc Hh Ht. pose proof (object_size_limit Hc) as Hlim.
  unfold Size, distance, size_t.
  destruct (Z_le_gt_dec (head rb) (tail rb)) as [L | G].
  - rewrite (Z.mod_small (tail rb - head rb)) by lia.
    rewrite (Z.mod_small (tail rb - head rb + capacity)) by lia.
    rewrite <- (Z_mod_plus_full (tail rb - head rb) 1 capacity).
    f_equal. lia.
  - assert (E1 : (tail rb - head rb) mod 2 ^ size_bits
                 = tail rb - head rb + 2 ^ size_bits).
    { symmetry. apply Z.mod_unique with (q := -1); lia. }
    rewrite E1.
    assert (E2 : (tail rb - head rb + 2 ^ size_bits + capacity) mod 2 ^ size_bits
                 = tail rb - head rb + capacity).
    { symmetry. apply Z.mod_unique with (q := 1); lia. }
    rewrite E2.
    rewrite <- (Z_mod_plus_full (tail rb - head rb) 1 capacity).
    f_equal. lia.
Qed.

(** ** Reading and writing the slots *)

Lemma load_Some (d : list T) (idx : Z) :
  0 <= idx < Z.of_nat (length d) -> exists v, load d idx = Some v.
Proof.
  intros Hi. unfold load.
  replace (0 <=? idx) with true by (symmetry; apply Z.leb_le; lia).
  replace (idx <? Z.of_nat (length d)) with true by (symmetry; apply Z.ltb_lt; lia).
  simpl. apply lookup_lt_is_Some_2. lia.
Qed.

Lemma store_Some (d : list T) (idx : Z) (item : T) :
  0 <= idx < Z.of_nat (length d) ->
  store d idx item = Some (<[Z.to_nat idx := item]> d).
Proof.
  intros Hi. unfold store.
  replace (0 <=? idx) with true by (symmetry; apply Z.leb_le; lia).
  replace (idx <? Z.of_nat (length d)) with true by (symmetry; apply Z.ltb_lt; lia).
  reflexivity.
Qed.

Lemma store_inv (d d' : list T) (idx : Z) (item : T) :
  store d idx item = Some d' ->
  0 <= idx < Z.of_nat (length d) /\ d' = <[Z.to_nat idx := item]> d.
Proof.
  unfold store. intros H.
  destruct (0 <=? idx) eqn:E1; [| discriminate].
  destruct (idx <? Z.of_nat (length d)) eqn:E2; [| discriminate].
  simpl in H. injection H as <-.
  apply Z.leb_le in E1. apply Z.ltb_lt in E2. split; [lia | reflexivity].
Qed.

Lemma store_length (d d' : list T) (idx : Z) (item : T) :
  store d idx item = Some d' -> length d' = length d.
Proof.
  intros H. apply store_inv in H as [_ ->]. apply length_insert.
Qed.

Lemma load_store_same (d d' : list T) (idx : Z) (item : T) :
  store d idx item = Some d' -> load d' idx = Some item.
Proof.
  intros H. pose proof (store_length _ _ _ _ H) as Hl.
  apply store_inv in H as [Hi ->]. unfold load.
  rewrite length_insert.
  replace (0 <=? idx) with true by (symmetry; apply Z.leb_le; lia).
  replace (idx <? Z.of_nat (length d)) with true by (symmetry; apply Z.ltb_lt; lia).
  simpl. apply list_lookup_insert_eq. lia.
Qed.

Lemma load_store_other (d d' : list T) (idx other : Z) (item : T) :
  store d idx item = Some d' -> other <> idx -> load d' other = load d other.
Proof.
  intros H Hne. apply store_inv in H as [Hi ->]. unfold load.
  rewrite length_insert.
  destruct (0 <=? other) eqn:E1; [| reflexivity].
  destruct (other <? Z.of_nat (length d)) eqn:E2; [| reflexivity].
  simpl. apply Z.leb_le in E1. apply list_lookup_insert_ne. lia.
Qed.

(** ** The stored values *)

Lemma distance_same (from to : Z) :
  0 <= from < capacity -> 0 <= to < capacity ->
  distance from to = 0 <-> from = to.
Proof.
  intros Hf Ht. destruct (distance_cases from to Hf Ht) as [[? ?] | [? ?]]; lia.
Qed.

Lemma distance_bound (from to : Z) :
  0 < capacity -> 0 <= distance from to < capacity.
Proof. intros Hc. apply Z.mod_pos_bound. exact Hc. Qed.

Lemma distance_increment_from (from to : Z) :
  0 < capacity < 2 ^ size_bits ->
  0 <= from < capacity -> 0 <= to < capacity ->
  from <> to ->
  distance (increment from) to = distance from to - 1.
Proof.
  intros Hc Hf Ht Hne.
  pose proof (increment_range from (proj1 Hc)) as Hi.
  destruct (increment_cases from Hc Hf) as [[? ?] | [? ?]];
    destruct (distance_cases from to Hf Ht) as [[? ?] | [? ?]];
    destruct (distance_cases (increment from) to Hi Ht) as [[? ?] | [? ?]];
    lia.
Qed.

Lemma distance_increment_to (from to : Z) :
  0 < capacity < 2 ^ size_bits ->
  0 <= from < capacity -> 0 <= to < capacity ->
  increment to <> from ->
  distance from (increment to) = distance from to + 1.
Proof.
  intros Hc Hf Ht Hne.
  pose proof (increment_range to (proj1 Hc)) as Hi.
  destruct (increment_cases to Hc Ht) as [[? ?] | [? ?]];
    destruct (distance_cases from to Hf Ht) as [[? ?] | [? ?]];
    destruct (distance_cases from (increment to) Hf Hi) as [[? ?] | [? ?]];
    lia.
Qed.

Lemma increment_injective (i j : Z) :
  0 < capacity < 2 ^ size_bits ->
  0 <= i < capacity -> 0 <= j < capacity ->
  increment i = increment j -> i = j.
Proof.
  intros Hc Hi Hj.
  destruct (increment_cases i Hc Hi) as [[? ?] | [? ?]];
    destruct (increment_cases j Hc Hj) as [[? ?] | [? ?]]; lia.
Qed.

(** A write to the slot at the write index leaves the stored values alone. *)
Lemma slots_from_store (d d' : list T) (to : Z) (item : T) (n : nat) :
  0 < capacity < 2 ^ size_bits ->
  0 <= to < capacity ->
  store d to item = Some d' ->
  forall from : Z,
    0 <= from < capacity ->
    Z.of_nat n <= distance from to ->
    slots_from d' from n = slots_from d from n.
Proof.
  intros Hc Ht Hst. induction n as [| n IH]; intros from Hf Hn; [reflexivity |].
  assert (Hne : from <> to).
  { intros ->. pose proof (proj2 (distance_same to to Ht Ht) eq_refl). lia. }
  simpl. rewrite (load_store_other _ _ _ _ _ Hst Hne).
  destruct (load d from) as [v |]; [| reflexivity].
  f_equal. apply IH.
  - apply increment_range. lia.
  - rewrite distance_increment_from by assumption. lia.
Qed.

(** Moving the write index over a slot appends the value of the slot. *)
Lemma slots_from_snoc (d : list T) (to : Z) (item : T) (n : nat) :
  0 < capacity < 2 ^ size_bits ->
  length d = Z.to_nat capacity ->
  0 <= to < capacity ->
  load d to = Some item ->
  forall from : Z,
    0 <= from < capacity ->
    Z.of_nat n = distance from to ->
    slots_from d from (S n) = slots_from d from n ++ [item].
Proof.
  intros Hc Hlen Ht Hld. induction n as [| n IH]; intros from Hf Hn.
  - assert (from = to) as -> by (apply distance_same; [assumption .. | lia]).
    simpl. rewrite Hld. reflexivity.
  - assert (Hne : from <> to).
    { intros ->. pose proof (proj2 (distance_same to to Ht Ht) eq_refl). lia. }
    destruct (load_Some d from) as [v Hv]; [lia |].
    change (slots_from d from (S (S n)))
      with (match load d from with
            | Some v => v :: slots_from d (increment from) (S n)
            | None => []
            end).
    change (slots_from d from (S n))
      with (match load d from with
            | Some v => v :: slots_from d (increment from) n
            | None => []
            end).
    rewrite Hv. rewrite IH.
    + reflexivity.
    + apply increment_range. lia.
    + rewrite distance_increment_from by assumption. lia.
Qed.

Lemma slots_from_length (d : list T) (n : nat) :
  0 < capacity ->
  length d = Z.to_nat capacity ->
  forall from : Z, 0 <= from < capacity -> length (slots_from d from n) = n.
Proof.
  intros Hc Hlen. induction n as [| n IH]; intros from Hf; [reflexivity |].
  destruct (load_Some d from) as [v Hv]; [lia |].
  simpl. rewrite Hv. simpl. f_equal. apply IH. apply increment_range. exact Hc.
Qed.

Lemma contents_length (rb : RingBuffer) :
  0 < capacity -> in_range rb ->
  Z.of_nat (length (contents rb)) = distance (head rb) (tail rb).
Proof.
  intros Hc (Hlen & Hh & Ht). unfold contents.
  rewrite slots_from_length by assumption.
  pose proof (distance_bound (head rb) (tail rb) Hc). lia.
Qed.

Lemma contents_store (rb : RingBuffer) (item : T) (d : list T) :
  0 < capacity < 2 ^ size_bits ->
  in_range rb ->
  store (data rb) (tail rb) item = Some d ->
  contents (mkRingBuffer d (head rb) (tail rb)) = contents rb.
Proof.
  intros Hc (Hlen & Hh & Ht) Hst. unfold contents. simpl.
  apply slots_from_store with (to := tail rb) (item := item); try assumption.
  pose proof (distance_bound (head rb) (tail rb) (proj1 Hc)). lia.
Qed.

Lemma contents_publish_tail (rb : RingBuffer) (item : T) :
  0 < capacity < 2 ^ size_bits ->
  in_range rb ->
  load (data rb) (tail rb) = Some item ->
  increment (tail rb) <> head rb ->
  contents (mkRingBuffer (data rb) (head rb) (increment (tail rb)))
  = contents rb ++ [item].
Proof.
  intros Hc (Hlen & Hh & Ht) Hld Hne. unfold contents. simpl.
  rewrite distance_increment_to by assumption.
  pose proof (distance_bound (head rb) (tail rb) (proj1 Hc)) as Hb.
  replace (Z.to_nat (distance (head rb) (tail rb) + 1))
    with (S (Z.to_nat (distance (head rb) (tail rb)))) by lia.
  apply slots_from_snoc with (to := tail rb); try assumption. lia.
Qed.

Lemma contents_publish_head (rb : RingBuffer) (v : T) :
  0 < capacity < 2 ^ size_bits ->
  in_range rb ->
  head rb <> tail rb ->
  load (data rb) (head rb) = Some v ->
  contents rb
  = v :: contents (mkRingBuffer (data rb) (increment (head rb)) (tail rb)).
Proof.
  intros Hc (Hlen & Hh & Ht) Hne Hld. unfold contents. simpl.
  rewrite distance_increment_from by assumption.
  pose proof (distance_bound (head rb) (tail rb) (proj1 Hc)) as Hb.
  pose proof (distance_same (head rb) (tail rb) Hh Ht) as Hz.
  replace (Z.to_nat (distance (head rb) (tail rb)))
    with (S (Z.to_nat (distance (head rb) (tail rb) - 1))) by lia.
  simpl. rewrite Hld. reflexivity.
Qed.

(** ** One call *)

Lemma ctor_in_range (indeterminate : nat -> T) :
  0 < capacity -> in_range (RingBuffer_ctor indeterminate).
Proof.
  intros Hc. unfold in_range, RingBuffer_ctor. simpl.
  rewrite length_fmap, length_seq. lia.
Qed.

Lemma Reset_in_range (rb : RingBuffer) :
  0 < capacity -> in_range rb -> in_range (Reset rb).
Proof. intros Hc (Hlen & _ & _). unfold in_range, Reset. simpl. lia. Qed.

Lemma Push_when_full (item : T) (rb : RingBuffer) :
  IsFull rb = true -> Push item rb = Some (false, rb).
Proof. unfold IsFull, Push. intros ->. reflexivity. Qed.

Lemma Push_when_not_full (item : T) (rb : RingBuffer) :
  0 < capacity ->
  in_range rb ->
  IsFull rb = false ->
  exists d,
    store (data rb) (tail rb) item = Some d /\
    Push item rb = Some (true, mkRingBuffer d (head rb) (increment (tail rb))) /\
    in_range (mkRingBuffer d (head rb) (increment (tail rb))).
Proof.
  intros Hc (Hlen & Hh & Ht) Hnf.
  exists (<[Z.to_nat (tail rb) := item]> (data rb)).
  assert (Hst : store (data rb) (tail rb) item
                = Some (<[Z.to_nat (tail rb) := item]> (data rb))).
  { apply store_Some. lia. }
  split; [exact Hst |]. split.
  - unfold IsFull in Hnf. unfold Push. rewrite Hnf. simpl. rewrite Hst. reflexivity.
  - unfold in_range. simpl. rewrite length_insert.
    pose proof (increment_range (tail rb) Hc). lia.
Qed.

Lemma Pop_when_empty (item : T) (rb : RingBuffer) :
  IsEmpty rb = true -> Pop item rb = Some (false, item, rb).
Proof. unfold IsEmpty, Pop. intros ->. reflexivity. Qed.

Lemma Pop_when_not_empty (item : T) (rb : RingBuffer) :
  0 < capacity ->
  in_range rb ->
  IsEmpty rb = false ->
  exists v,
    load (data rb) (head rb) = Some v /\
    Pop item rb = Some (true, v, mkRingBuffer (data rb) (increment (head rb)) (tail rb)) /\
    in_range (mkRingBuffer (data rb) (increment (head rb)) (tail rb)).
Proof.
  intros Hc (Hlen & Hh & Ht) Hne.
  destruct (load_Some (data rb) (head rb)) as [v Hv]; [lia |].
  exists v. split; [exact Hv |]. split.
  - unfold IsEmpty in Hne. unfold Pop. rewrite Hne, Hv. reflexivity.
  - unfold in_range. simpl.
    pose proof (increment_range (head rb) Hc). lia.
Qed.

(** ** Sequences of calls *)

(** No call reads or writes outside [data], and the indices stay in range. *)
Lemma do_call_in_range (c : call) (h : history) :
  0 < capacity ->
  in_range (buffer h) ->
  exists h', do_call c h = Some h' /\ in_range (buffer h').
Proof.
  intros Hc Hin. destruct c as [item | item |]; simpl.
  - destruct (IsFull (buffer h)) eqn:Hf.
    + rewrite (Push_when_full item _ Hf). eexists. split; [reflexivity | exact Hin].
    + destruct (Push_when_not_full item _ Hc Hin Hf) as (d & _ & -> & Hin').
      eexists. split; [reflexivity | exact Hin'].
  - destruct (IsEmpty (buffer h)) eqn:He.
    + rewrite (Pop_when_empty item _ He). eexists. split; [reflexivity | exact Hin].
    + destruct (Pop_when_not_empty item _ Hc Hin He) as (v & _ & -> & Hin').
      eexists. split; [reflexivity | exact Hin'].
  - eexists. split; [reflexivity |]. simpl. apply Reset_in_range; assumption.
Qed.

Lemma run_in_range (cs : list call) :
  0 < capacity ->
  forall h : history,
    in_range (buffer h) ->
    exists h', run cs h = Some h' /\ in_range (buffer h').
Proof.
  intros Hc. induction cs as [| c cs IH]; intros h Hin; simpl.
  - exists h. split; [reflexivity | exact Hin].
  - destruct (do_call_in_range c h Hc Hin) as (h1 & -> & Hin1).
    apply IH. exact Hin1.
Qed.

(** A call of [Push] or [Pop] keeps the record of accepted and delivered
    values in step with the stored values. *)
Lemma do_call_fifo (c : call) (h : history) :
  0 < capacity < 2 ^ size_bits ->
  is_transfer c = true ->
  in_range (buffer h) -> fifo h ->
  exists h', do_call c h = Some h' /\ in_range (buffer h') /\ fifo h'.
Proof.
  intros Hc Htr Hin Hfifo. unfold fifo in *.
  destruct c as [item | item |]; simpl in *; [| | discriminate].
  - destruct (IsFull (buffer h)) eqn:Hf.
    + rewrite (Push_when_full item _ Hf). eexists. split; [reflexivity |].
      split; [exact Hin | exact Hfifo].
    + destruct (Push_when_not_full item _ (proj1 Hc) Hin Hf) as (d & Hst & -> & Hin').
      eexists. split; [reflexivity |]. split; [exact Hin' |]. simpl.
      assert (Hin1 : in_range (mkRingBuffer d (head (buffer h)) (tail (buffer h)))).
      { destruct Hin as (Hlen & Hh & Ht). unfold in_range. simpl.
        rewrite (store_length _ _ _ _ Hst). auto. }
      pose proof (contents_publish_tail
                    (mkRingBuffer d (head (buffer h)) (tail (buffer h))) item Hc Hin1)
        as Hpub.
      simpl in Hpub. rewrite Hpub.
      * rewrite (contents_store _ item d Hc Hin Hst), Hfifo. symmetry. apply app_assoc.
      * apply (load_store_same _ _ _ _ Hst).
      * unfold IsFull in Hf. apply Z.eqb_neq. exact Hf.
  - destruct (IsEmpty (buffer h)) eqn:He.
    + rewrite (Pop_when_empty item _ He). eexists. split; [reflexivity |].
      split; [exact Hin | exact Hfifo].
    + destruct (Pop_when_not_empty item _ (proj1 Hc) Hin He) as (v & Hld & -> & Hin').
      eexists. split; [reflexivity |]. split; [exact Hin' |]. simpl.
      rewrite Hfifo.
      rewrite (contents_publish_head (buffer h) v Hc Hin); [| | exact Hld].
      * rewrite <- app_assoc. reflexivity.
      * unfold IsEmpty in He. apply Z.eqb_neq. exact He.
Qed.

Lemma run_fifo (cs : list call) :
  0 < capacity < 2 ^ size_bits ->
  forallb is_transfer cs = true ->
  forall h : history,
    in_range (buffer h) -> fifo h ->
    exists h', run cs h = Some h' /\ in_range (buffer h') /\ fifo h'.
Proof.
  intros Hc. induction cs as [| c cs IH]; intros Htr h Hin Hfifo; simpl.
  - exists h. auto.
  - simpl in Htr. apply andb_true_iff in Htr as [Hc1 Hcs].
    destruct (do_call_fifo c h Hc Hc1 Hin Hfifo) as (h1 & -> & Hin1 & Hfifo1).
    apply IH; assumption.
Qed.

Lemma fresh_fifo (indeterminate : nat -> T) : fifo (fresh indeterminate).
Proof.
  unfold fifo, fresh, contents, distance, RingBuffer_ctor.
  cbn [buffer head tail accepted delivered data].
  rewrite Z.sub_diag, Zmod_0_l. reflexivity.
Qed.

Lemma contents_empty (rb : RingBuffer) :
  IsEmpty rb = true -> contents rb = [].
Proof.
  unfold IsEmpty, contents, distance. intros He. apply Z.eqb_eq in He.
  rewrite He, Z.sub_diag, Zmod_0_l. reflexivity.
Qed.

(** Calls of [Pop], as many as there are stored values or more, deliver all
    the stored values. *)
Lemma run_drain (item : T) (n : nat) :
  0 < capacity < 2 ^ size_bits ->
  forall h : history,
    in_range (buffer h) -> fifo h ->
    (length (contents (buffer h)) <= n)%nat ->
    exists h',
      run (repeat (CallPop item) n) h = Some h' /\
      accepted h' = accepted h /\ delivered h' = accepted h.
Proof.
  intros Hc. induction n as [| n IH]; intros h Hin Hfifo Hn.
  - exists h. split; [reflexivity |]. split; [reflexivity |].
    unfold fifo in Hfifo. rewrite Hfifo.
    destruct (contents (buffer h)); [symmetry; apply app_nil_r | simpl in Hn; lia].
  - simpl. destruct (IsEmpty (buffer h)) eqn:He.
    + rewrite (Pop_when_empty item _ He).
      destruct h as [rb acc del]. simpl in *.
      apply (IH (mkHistory rb acc del)); [exact Hin | exact Hfifo |].
      simpl. rewrite (contents_empty _ He). simpl. lia.
    + destruct (Pop_when_not_empty item _ (proj1 Hc) Hin He) as (v & Hld & -> & Hin').
      assert (Hne : head (buffer h) <> tail (buffer h)).
      { unfold IsEmpty in He. apply Z.eqb_neq. exact He. }
      pose proof (contents_publish_head (buffer h) v Hc Hin Hne Hld) as Hcons.
      edestruct (IH (mkHistory
                       (mkRingBuffer (data (buffer h)) (increment (head (buffer h)))
                                     (tail (buffer h)))
                       (accepted h) (delivered h ++ [v])))
        as (h' & Hrun & Hacc & Hdel).
      * exact Hin'.
      * unfold fifo in *. simpl. rewrite Hfifo, Hcons, <- app_assoc. reflexivity.
      * simpl. rewrite Hcons in Hn. simpl in Hn. lia.
      * exists h'. split; [exact Hrun |]. split; [exact Hacc | exact Hdel].
Qed.

(** Calls of [Push] on a buffer nothing was read from are accepted as long
    as the write index stays below [capacity - 1]. *)
Lemma run_pushes (items : list T) :
  0 < capacity < 2 ^ size_bits ->
  forall h : history,
    in_range (buffer h) ->
    head (buffer h) = 0 ->
    tail (buffer h) + Z.of_nat (length items) <= capacity - 1 ->
    exists h',
      run (map CallPush items) h = Some h' /\
      in_range (buffer h') /\
      accepted h' = accepted h ++ items /\
      delivered h' = delivered h /\
      head (buffer h') = 0 /\
      tail (buffer h') = tail (buffer h) + Z.of_nat (length items).
Proof.
  intros Hc. induction items as [| item items IH]; intros h Hin Hh Ht.
  - exists h. simpl. rewrite app_nil_r.
    split; [reflexivity |]. split; [exact Hin |]. split; [reflexivity |].
    split; [reflexivity |]. split; [exact Hh | lia].
  - simpl in Ht. simpl.
    assert (Hr : 0 <= tail (buffer h) < capacity) by apply Hin.
    destruct (increment_cases (tail (buffer h)) Hc Hr) as [[Hlt Hinc] | [Heq _]]; [| lia].
    assert (Hf : IsFull (buffer h) = false).
    { unfold IsFull. apply Z.eqb_neq. lia. }
    destruct (Push_when_not_full item _ (proj1 Hc) Hin Hf) as (d & _ & -> & Hin').
    edestruct (IH (mkHistory
                     (mkRingBuffer d (head (buffer h)) (increment (tail (buffer h))))
                     (accepted h ++ [item]) (delivered h)))
      as (h' & Hrun & Hin2 & Hacc & Hdel & Hh' & Ht').
    + exact Hin'.
    + exact Hh.
    + simpl. lia.
    + exists h'. simpl in *. split; [exact Hrun |]. split; [exact Hin2 |].
      split; [rewrite Hacc, <- app_assoc; reflexivity |].
      split; [exact Hdel |]. split; [exact Hh' | lia].
Qed.

(** ** The claims about calls made one after the other *)

(** C1: for every sequence of calls of [Push] and [Pop] on a buffer that has
    just been constructed, no call leaves [data], and the values delivered by
    the calls of [Pop] that return [true] are, in the same order, the values
    accepted by the calls of [Push] that return [true]: the delivered values
    followed by the values still stored are the accepted values, the two
    sequences are equal when the buffer is empty, and calls of [Pop] that
    follow deliver the rest, so that nothing is lost, duplicated or
    reordered.  [0 < capacity < 2 ^ size_bits] says that the template
    argument is a positive value of [size_t]. *)
Theorem Push_Pop_fifo (cs : list call) (indeterminate : nat -> T) (item : T) :
  0 < capacity < 2 ^ size_bits ->
  forallb is_transfer cs = true ->
  exists h,
    run cs (fresh indeterminate) = Some h /\
    accepted h = delivered h ++ contents (buffer h) /\
    (IsEmpty (buffer h) = true -> delivered h = accepted h) /\
    exists h',
      run (repeat (CallPop item) (Z.to_nat capacity)) h = Some h' /\
      accepted h' = accepted h /\ delivered h' = accepted h.
Proof.
  intros Hc Htr.
  destruct (run_fifo cs Hc Htr (fresh indeterminate)) as (h & Hrun & Hin & Hfifo).
  - apply ctor_in_range. lia.
  - apply fresh_fifo.
  - exists h. split; [exact Hrun |]. split; [exact Hfifo |]. split.
    + intros He. unfold fifo in Hfifo.
      rewrite Hfifo, (contents_empty _ He), app_nil_r. reflexivity.
    + apply run_drain; try assumption.
      pose proof (contents_length (buffer h) (proj1 Hc) Hin) as Hl.
      pose proof (distance_bound (head (buffer h)) (tail (buffer h)) (proj1 Hc)).
      lia.
Qed.

(** C2: in every state in which the buffer is full, [Push] returns [false]
    and the buffer after the call is the buffer before it: [data], [head] and
    [tail] are unchanged and no value is added to the stored ones. *)
Theorem Push_full_unchanged (item : T) (rb : RingBuffer) :
  IsFull rb = true ->
  increment (tail rb) = head rb /\
  Push item rb = Some (false, rb).
Proof.
  intros Hf. split.
  - unfold IsFull in Hf. apply Z.eqb_eq. exact Hf.
  - apply Push_when_full. exact Hf.
Qed.

(** C3: in every state in which the buffer is empty, [Pop] returns [false],
    the buffer after the call is the buffer before it, and the caller's
    variable holds the value it held before the call. *)
Theorem Pop_empty_unchanged (item : T) (rb : RingBuffer) :
  IsEmpty rb = true ->
  head rb = tail rb /\
  Pop item rb = Some (false, item, rb).
Proof.
  intros He. split.
  - unfold IsEmpty in He. apply Z.eqb_eq. exact He.
  - apply Pop_when_empty. exact He.
Qed.

Lemma distance_formula (from to : Z) :
  distance from to = (to - from + capacity) mod capacity.
Proof.
  unfold distance. rewrite <- (Z_mod_plus_full (to - from) 1 capacity).
  f_equal. lia.
Qed.

Lemma IsFull_distance (rb : RingBuffer) :
  0 < capacity < 2 ^ size_bits ->
  0 <= head rb < capacity ->
  0 <= tail rb < capacity ->
  IsFull rb = true <-> distance (head rb) (tail rb) = capacity - 1.
Proof.
  intros Hc Hh Ht. unfold IsFull. rewrite Z.eqb_eq.
  destruct (increment_cases (tail rb) Hc Ht) as [[? ?] | [? ?]];
    destruct (distance_cases (head rb) (tail rb) Hh Ht) as [[? ?] | [? ?]];
    lia.
Qed.

(** C4: in every state reached from a buffer that has just been constructed,
    the [size_t] arithmetic of [Size] gives
    [(tail - head + capacity) mod capacity] computed over the integers; after
    calls of [Push] and [Pop] this is the number of values accepted and not
    yet delivered; and [k <= capacity - 1] calls of [Push] on a new buffer
    are all accepted and give [Size] [k], after which, when
    [k = capacity - 1], the buffer is full and a further [Push] returns
    [false] and changes nothing.  [capacity <= PTRDIFF_MAX] is the limit on
    the size of the member [data[capacity]]. *)
Theorem Size_counts_stored :
  0 < capacity <= PTRDIFF_MAX ->
  (forall (cs : list call) (indeterminate : nat -> T),
      exists h,
        run cs (fresh indeterminate) = Some h /\
        Size (buffer h)
        = (tail (buffer h) - head (buffer h) + capacity) mod capacity) /\
  (forall (cs : list call) (indeterminate : nat -> T),
      forallb is_transfer cs = true ->
      exists h,
        run cs (fresh indeterminate) = Some h /\
        Size (buffer h)
        = Z.of_nat (length (accepted h)) - Z.of_nat (length (delivered h))) /\
  (forall (items : list T) (indeterminate : nat -> T),
      Z.of_nat (length items) <= capacity - 1 ->
      exists h,
        run (map CallPush items) (fresh indeterminate) = Some h /\
        accepted h = items /\
        delivered h = [] /\
        Size (buffer h) = Z.of_nat (length items) /\
        (Z.of_nat (length items) = capacity - 1 ->
         IsFull (buffer h) = true /\
         forall item : T, Push item (buffer h) = Some (false, buffer h))).
Proof.
  intros Hc. pose proof (object_size_limit Hc) as Hlim.
  assert (Hc' : 0 < capacity < 2 ^ size_bits) by lia.
  split; [| split].
  - intros cs indeterminate.
    destruct (run_in_range cs (proj1 Hc) (fresh indeterminate))
      as (h & Hrun & Hin).
    { apply ctor_in_range. lia. }
    exists h. split; [exact Hrun |].
    rewrite <- distance_formula. apply Size_distance; [exact Hc | apply Hin ..].
  - intros cs indeterminate Htr.
    destruct (run_fifo cs Hc' Htr (fresh indeterminate)) as (h & Hrun & Hin & Hfifo).
    { apply ctor_in_range. lia. }
    { apply fresh_fifo. }
    exists h. split; [exact Hrun |].
    rewrite Size_distance by (try exact Hc; apply Hin).
    rewrite <- (contents_length _ (proj1 Hc) Hin).
    unfold fifo in Hfifo. rewrite Hfifo, length_app. lia.
  - intros items indeterminate Hk.
    destruct (run_pushes items Hc' (fresh indeterminate))
      as (h & Hrun & Hin & Hacc & Hdel & Hh & Ht).
    { apply ctor_in_range. lia. }
    { reflexivity. }
    { simpl. lia. }
    simpl in Hacc, Hdel, Ht.
    assert (Hsz : Size (buffer h) = Z.of_nat (length items)).
    { rewrite Size_distance by (try exact Hc; apply Hin).
      destruct (distance_cases (head (buffer h)) (tail (buffer h)))
        as [[? ?] | [? ?]]; try apply Hin; lia. }
    exists h. split; [exact Hrun |]. split; [exact Hacc |]. split; [exact Hdel |].
    split; [exact Hsz |].
    intros Hfull.
    assert (Hf : IsFull (buffer h) = true).
    { apply IsFull_distance; try exact Hc'; try apply Hin.
      rewrite <- Size_distance by (try exact Hc; apply Hin). lia. }
    split; [exact Hf |]. intros item. apply Push_when_full. exact Hf.
Qed.

(** C5, as amended: for every capacity of at least two (a value of
    [size_t]), a buffer that has just been constructed is empty, is not full,
    has [Size] zero, and its first [Pop] returns [false] and changes
    nothing. *)
Theorem ctor_empty (indeterminate : nat -> T) (item : T) :
  2 <= capacity < 2 ^ size_bits ->
  IsEmpty (RingBuffer_ctor indeterminate) = true /\
  IsFull (RingBuffer_ctor indeterminate) = false /\
  Size (RingBuffer_ctor indeterminate) = 0 /\
  Pop item (RingBuffer_ctor indeterminate)
  = Some (false, item, RingBuffer_ctor indeterminate).
Proof.
  intros Hc. split; [reflexivity |]. split; [| split].
  - unfold IsFull, RingBuffer_ctor. cbn [head tail].
    destruct (increment_cases 0) as [[_ E] | [E _]];
      [lia | lia | rewrite E; reflexivity | lia].
  - unfold Size, RingBuffer_ctor, size_t. cbn [head tail].
    rewrite Z.sub_diag, Zmod_0_l, Z.add_0_l.
    rewrite (Z.mod_small capacity) by lia. apply Z_mod_same_full.
  - apply Pop_when_empty. reflexivity.
Qed.

(** C6: in every state, whatever the indices and the stored values are,
    [Reset] gives a buffer that is empty, has [Size] zero, and whose next
    [Pop] returns [false].  [0 < capacity < 2 ^ size_bits] says that the
    template argument is a positive value of [size_t]. *)
Theorem Reset_empty (rb : RingBuffer) (item : T) :
  0 < capacity < 2 ^ size_bits ->
  IsEmpty (Reset rb) = true /\
  Size (Reset rb) = 0 /\
  Pop item (Reset rb) = Some (false, item, Reset rb).
Proof.
  intros Hc. split; [reflexivity |]. split.
  - unfold Size, Reset, size_t. cbn [head tail].
    rewrite Z.sub_diag, Zmod_0_l, Z.add_0_l.
    rewrite (Z.mod_small capacity) by lia. apply Z_mod_same_full.
  - apply Pop_when_empty. reflexivity.
Qed.

(** C7: when both indices are in range, [IsFull], which tests whether the
    incremented write index is the read index, returns [true] exactly when
    [Size] is [capacity - 1], whichever of the two indices is the larger.
    [capacity <= PTRDIFF_MAX] is the limit on the size of the member
    [data[capacity]]. *)
Theorem IsFull_iff_Size (rb : RingBuffer) :
  0 < capacity <= PTRDIFF_MAX ->
  0 <= head rb < capacity ->
  0 <= tail rb < capacity ->
  IsFull rb = true <-> Size rb = capacity - 1.
Proof.
  intros Hc Hh Ht. pose proof (object_size_limit Hc) as Hlim.
  rewrite Size_distance by assumption.
  apply IsFull_distance; [lia | assumption ..].
Qed.

(** C8: the constructor puts both indices in range, every call of [Push],
    [Pop] and [Reset] on a buffer whose indices are in range returns with
    the indices in range, and so in every state reached from a new buffer
    [0 <= tail < capacity], [0 <= head < capacity] and
    [0 <= Size() <= capacity - 1]. *)
Theorem indices_in_range :
  0 < capacity ->
  (forall indeterminate : nat -> T, in_range (RingBuffer_ctor indeterminate)) /\
  (forall (c : call) (h : history),
      in_range (buffer h) ->
      exists h', do_call c h = Some h' /\ in_range (buffer h')) /\
  (forall (cs : list call) (indeterminate : nat -> T),
      exists h,
        run cs (fresh indeterminate) = Some h /\
        0 <= tail (buffer h) < capacity /\
        0 <= head (buffer h) < capacity /\
        0 <= Size (buffer h) <= capacity - 1).
Proof.
  intros Hc. split; [| split].
  - intros indeterminate. apply ctor_in_range. exact Hc.
  - intros c h. apply do_call_in_range. exact Hc.
  - intros cs indeterminate.
    destruct (run_in_range cs Hc (fresh indeterminate)) as (h & Hrun & Hin).
    { apply ctor_in_range. exact Hc. }
    exists h. split; [exact Hrun |].
    split; [apply Hin |]. split; [apply Hin |].
    unfold Size.
    pose proof (Z.mod_pos_bound
                  (size_t (size_t (tail (buffer h) - head (buffer h)) + capacity))
                  capacity Hc).
    lia.
Qed.

(** ** The producer and the consumer as two contexts *)

Lemma power_on_ok (indeterminate : nat -> T) (items : list T) :
  0 < capacity -> system_ok (power_on indeterminate items).
Proof.
  intros Hc. unfold system_ok, power_on, producer_ok, consumer_ok.
  cbn [shared producer consumer].
  split; [apply ctor_in_range; exact Hc |].
  split; [apply fresh_fifo |]. split; exact I.
Qed.

Ltac step_done :=
  eexists; split; [reflexivity |]; cbn;
  split; [assumption | split; [assumption | split]];
  first [assumption | repeat split; auto].

(** A step of the producer stays inside [data] and keeps [system_ok]. *)
Lemma producer_step_ok (s : system) :
  0 < capacity < 2 ^ size_bits ->
  system_ok s ->
  exists s', producer_step s = Some s' /\ system_ok s'.
Proof.
  intros Hc (Hin & Hfifo & Hp & Hco).
  destruct s as [[rb acc del] pc scr cc].
  unfold system_ok, producer_ok, consumer_ok, fifo, producer_step in *.
  cbn [shared buffer accepted delivered producer consumer script] in *.
  destruct pc as [| item ct nt | item ct nt | item ct nt | item ct nt].
  - destruct scr as [| item rest]; step_done.
  - destruct Hp as [-> ->].
    destruct (increment (tail rb) =? head rb) eqn:E; cbn [negb].
    + step_done.
    + apply Z.eqb_neq in E. step_done.
  - step_done.
  - destruct Hp as (-> & -> & Hne).
    assert (Hst : store (data rb) (tail rb) item
                  = Some (<[Z.to_nat (tail rb) := item]> (data rb))).
    { apply store_Some. destruct Hin as (Hlen & _ & Ht). lia. }
    rewrite Hst. eexists. split; [reflexivity |].
    cbn [shared buffer accepted delivered producer consumer script data head tail].
    split; [| split; [| split]].
    + destruct Hin as (Hlen & Hh & Ht). unfold in_range. cbn [data head tail].
      rewrite length_insert. auto.
    + rewrite (contents_store rb item _ Hc Hin Hst). exact Hfifo.
    + split; [reflexivity |]. split; [reflexivity |]. split; [exact Hne |].
      apply (load_store_same _ _ _ _ Hst).
    + destruct cc as [| ch | ch | ch | item' ch]; try exact Hco.
      destruct Hco as (Hch & Hne' & Hld). split; [exact Hch |]. split; [exact Hne' |].
      rewrite (load_store_other _ _ _ _ _ Hst Hne'). exact Hld.
  - destruct Hp as (-> & -> & Hne & Hld).
    eexists. split; [reflexivity |].
    cbn [shared buffer accepted delivered producer consumer script data head tail].
    split; [| split; [| split]].
    + destruct Hin as (Hlen & Hh & Ht). unfold in_range. cbn [data head tail].
      pose proof (increment_range (tail rb) (proj1 Hc)). auto.
    + rewrite (contents_publish_tail rb item Hc Hin Hld Hne), Hfifo.
      symmetry. apply app_assoc.
    + exact I.
    + destruct cc as [| ch | ch | ch | item' ch]; try exact Hco.
      * destruct Hco as (-> & _). split; [reflexivity |]. auto.
      * destruct Hco as (-> & _). split; [reflexivity |]. auto.
      * destruct Hco as (-> & _ & Hld'). split; [reflexivity |]. auto.
Qed.

(** A step of the consumer stays inside [data] and keeps [system_ok]. *)
Lemma consumer_step_ok (s : system) :
  0 < capacity < 2 ^ size_bits ->
  system_ok s ->
  exists s', consumer_step s = Some s' /\ system_ok s'.
Proof.
  intros Hc (Hin & Hfifo & Hp & Hco).
  destruct s as [[rb acc del] pc scr cc].
  unfold system_ok, producer_ok, consumer_ok, fifo, consumer_step in *.
  cbn [shared buffer accepted delivered producer consumer script] in *.
  destruct cc as [| ch | ch | ch | item ch].
  - step_done.
  - subst ch. destruct (head rb =? tail rb) eqn:E.
    + step_done.
    + apply Z.eqb_neq in E. step_done.
  - step_done.
  - destruct Hco as (-> & Hne).
    destruct (load_Some (data rb) (head rb)) as [v Hv].
    { destruct Hin as (Hlen & Hh & _). lia. }
    rewrite Hv. step_done.
  - destruct Hco as (-> & Hne & Hld).
    eexists. split; [reflexivity |].
    cbn [shared buffer accepted delivered producer consumer script data head tail].
    assert (Hinj : forall nt, nt = increment (tail rb) -> nt <> increment (head rb)).
    { intros nt -> Heq. apply Hne. symmetry.
      apply increment_injective; try exact Hc; try apply Hin. exact Heq. }
    split; [| split; [| split]].
    + destruct Hin as (Hlen & Hh & Ht). unfold in_range. cbn [data head tail].
      pose proof (increment_range (head rb) (proj1 Hc)). auto.
    + rewrite Hfifo, (contents_publish_head rb item Hc Hin Hne Hld), <- app_assoc.
      reflexivity.
    + destruct pc as [| it ct nt | it ct nt | it ct nt | it ct nt]; try exact Hp.
      * destruct Hp as (-> & -> & _). repeat split; auto.
      * destruct Hp as (-> & -> & _). repeat split; auto.
      * destruct Hp as (-> & -> & _ & Hld'). repeat split; auto.
    + exact I.
Qed.

Lemma interleave_ok (schedule : list context) :
  0 < capacity < 2 ^ size_bits ->
  forall s : system,
    system_ok s ->
    exists s', interleave schedule s = Some s' /\ system_ok s'.
Proof.
  intros Hc. induction schedule as [| c schedule IH]; intros s Hok.
  - exists s. split; [reflexivity | exact Hok].
  - cbn [interleave].
    assert (Hstep : exists s1, context_step c s = Some s1 /\ system_ok s1).
    { destruct c; [apply producer_step_ok | apply consumer_step_ok]; assumption. }
    destruct Hstep as (s1 & -> & Hok1). apply IH. exact Hok1.
Qed.

(** The producer running alone from the call to the return of [Push] does
    what [Push] does. *)
Lemma producer_alone_Push (s : system) (item : T) (rest : list T) :
  producer s = ProducerIdle ->
  script s = item :: rest ->
  interleave (if IsFull (buffer (shared s))
              then [Producer; Producer]
              else [Producer; Producer; Producer; Producer; Producer]) s
  = match do_call (CallPush item) (shared s) with
    | Some h => Some (mkSystem h ProducerIdle rest (consumer s))
    | None => None
    end.
Proof.
  destruct s as [[rb acc del] pc scr cc]. cbn [producer script shared buffer consumer].
  intros -> ->. unfold IsFull, do_call, Push.
  cbn [buffer accepted delivered].
  destruct (increment (tail rb) =? head rb) eqn:E.
  - cbn. rewrite E. reflexivity.
  - cbn. rewrite E. cbn. destruct (store (data rb) (tail rb) item); reflexivity.
Qed.

(** The consumer running alone from the call to the return of [Pop] does
    what [Pop] does. *)
Lemma consumer_alone_Pop (s : system) (item : T) :
  consumer s = ConsumerIdle ->
  interleave (if IsEmpty (buffer (shared s))
              then [Consumer; Consumer]
              else [Consumer; Consumer; Consumer; Consumer; Consumer]) s
  = match do_call (CallPop item) (shared s) with
    | Some h => Some (mkSystem h (producer s) (script s) ConsumerIdle)
    | None => None
    end.
Proof.
  destruct s as [[rb acc del] pc scr cc]. cbn [producer script shared buffer consumer].
  intros ->. unfold IsEmpty, do_call, Pop.
  cbn [buffer accepted delivered].
  destruct (head rb =? tail rb) eqn:E.
  - cbn. rewrite E. reflexivity.
  - cbn [interleave context_step]. unfold consumer_step.
    cbn [consumer shared buffer producer script accepted delivered data head tail].
    rewrite E.
    cbn [consumer shared buffer producer script accepted delivered data head tail].
    destruct (load (data rb) (head rb)); reflexivity.
Qed.

(** X20: in the machine of [producer_step] and [consumer_step], where the
    accesses of each call take effect in the order of its statements,
    whatever the order in which the producer and the consumer take their
    steps, no step leaves [data] and
    - when [Push] is at [tail = next_tail], [tail] is still the old index and
      the slot at that index already holds the whole item;
    - when [Pop] has seen [current_head != tail] and is at or inside its
      [memcpy], the slot it reads holds the oldest value accepted and not yet
      delivered, and the producer is not writing that slot;
    - when [Pop] is at [head = increment(current_head)], [head] is still the
      old index, the value copied out is the oldest stored one, and the
      producer is not writing that slot;
    - the values delivered, followed by the values stored, are the values
      accepted.
    [0 < capacity < 2 ^ size_bits] says that the template argument is a
    positive value of [size_t]. *)
Theorem copy_before_publish
    (schedule : list context) (items : list T) (indeterminate : nat -> T) :
  0 < capacity < 2 ^ size_bits ->
  exists s,
    interleave schedule (power_on indeterminate items) = Some s /\
    (forall item current_tail next_tail,
        producer s = PushPublish item current_tail next_tail ->
        tail (buffer (shared s)) = current_tail /\
        load (data (buffer (shared s))) current_tail = Some item) /\
    (forall current_head,
        consumer s = PopMemcpy current_head \/ consumer s = PopCopying current_head ->
        head (buffer (shared s)) = current_head /\
        slot_being_written s <> Some current_head /\
        exists v rest,
          load (data (buffer (shared s))) current_head = Some v /\
          contents (buffer (shared s)) = v :: rest) /\
    (forall item current_head,
        consumer s = PopPublish item current_head ->
        head (buffer (shared s)) = current_head /\
        slot_being_written s <> Some current_head /\
        exists rest, contents (buffer (shared s)) = item :: rest) /\
    accepted (shared s) = delivered (shared s) ++ contents (buffer (shared s)).
Proof.
  intros Hc.
  destruct (interleave_ok schedule Hc (power_on indeterminate items))
    as (s & Hrun & Hin & Hfifo & Hp & Hco).
  { apply power_on_ok. lia. }
  exists s. split; [exact Hrun |].
  assert (Hw : forall ch, ch = head (buffer (shared s)) ->
                          ch <> tail (buffer (shared s)) ->
                          slot_being_written s <> Some ch).
  { intros ch Hch Hne. unfold slot_being_written. unfold producer_ok in Hp.
    destruct (producer s) as [| it ct nt | it ct nt | it ct nt | it ct nt];
      try discriminate.
    destruct Hp as (-> & _). intros [= E]. auto. }
  unfold consumer_ok in Hco. unfold producer_ok in Hp.
  split; [| split; [| split]].
  - intros item ct nt E. rewrite E in Hp. destruct Hp as (-> & _ & _ & Hld). auto.
  - intros ch [E | E]; rewrite E in Hco; destruct Hco as (Hch & Hne);
      (split; [auto | split; [auto |]]);
      subst ch;
      (destruct (load_Some (data (buffer (shared s))) (head (buffer (shared s))))
        as [v Hv]; [destruct Hin as (Hlen & Hh & _); lia |]);
      exists v; eexists; (split; [exact Hv |]);
      apply (contents_publish_head _ v Hc Hin Hne Hv).
  - intros item ch E. rewrite E in Hco. destruct Hco as (Hch & Hne & Hld).
    split; [auto | split; [auto |]]. subst ch.
    eexists. apply (contents_publish_head _ item Hc Hin Hne Hld).
  - exact Hfifo.
Qed.

(** ** More about the calls *)

(** X1: on a buffer whose indices are in range, [Push] returns [true] exactly
    when [IsFull] is [false]; it never changes [head]; when it returns [true]
    it has written the item to the slot at the old [tail] and to no other
    slot, has incremented [tail], and [Size] has grown by one. *)
Theorem Push_returns (item : T) (rb : RingBuffer) :
  0 < capacity <= PTRDIFF_MAX ->
  in_range rb ->
  exists rb',
    Push item rb = Some (negb (IsFull rb), rb') /\
    in_range rb' /\
    head rb' = head rb /\
    (IsFull rb = true -> rb' = rb) /\
    (IsFull rb = false ->
     tail rb' = increment (tail rb) /\
     Size rb' = Size rb + 1 /\
     load (data rb') (tail rb) = Some item /\
     forall idx : Z, idx <> tail rb -> load (data rb') idx = load (data rb) idx).
Proof.
  intros Hc Hin. pose proof (object_size_limit Hc) as Hlim.
  assert (Hc' : 0 < capacity < 2 ^ size_bits) by lia.
  destruct (IsFull rb) eqn:Hf.
  - exists rb. rewrite (Push_when_full item rb Hf).
    split; [reflexivity |]. split; [exact Hin |]. split; [reflexivity |].
    split; [reflexivity | discriminate].
  - destruct (Push_when_not_full item rb (proj1 Hc) Hin Hf) as (d & Hst & HPush & Hin').
    eexists. split; [exact HPush |]. split; [exact Hin' |].
    split; [reflexivity |]. split; [discriminate |]. intros _.
    cbn [head tail data]. split; [reflexivity |]. split; [| split].
    + rewrite !Size_distance; try exact Hc; try apply Hin; try apply Hin'.
      cbn [head tail]. apply distance_increment_to; try exact Hc'; try apply Hin.
      unfold IsFull in Hf. apply Z.eqb_neq. exact Hf.
    + apply (load_store_same _ _ _ _ Hst).
    + intros idx Hne. apply (load_store_other _ _ _ _ _ Hst Hne).
Qed.

(** X2: on a buffer whose indices are in range, [Pop] returns [true] exactly
    when [IsEmpty] is [false]; it never changes [tail] or a slot; when it
    returns [true] the caller's variable holds the value of the slot at the
    old [head], [head] is incremented, and [Size] has gone down by one. *)
Theorem Pop_returns (item : T) (rb : RingBuffer) :
  0 < capacity <= PTRDIFF_MAX ->
  in_range rb ->
  exists v rb',
    Pop item rb = Some (negb (IsEmpty rb), v, rb') /\
    in_range rb' /\
    tail rb' = tail rb /\
    data rb' = data rb /\
    (IsEmpty rb = true -> v = item /\ rb' = rb) /\
    (IsEmpty rb = false ->
     load (data rb) (head rb) = Some v /\
     head rb' = increment (head rb) /\
     Size rb' = Size rb - 1).
Proof.
  intros Hc Hin. pose proof (object_size_limit Hc) as Hlim.
  assert (Hc' : 0 < capacity < 2 ^ size_bits) by lia.
  destruct (IsEmpty rb) eqn:He.
  - exists item, rb. rewrite (Pop_when_empty item rb He).
    split; [reflexivity |]. split; [exact Hin |]. split; [reflexivity |].
    split; [reflexivity |]. split; [auto | discriminate].
  - destruct (Pop_when_not_empty item rb (proj1 Hc) Hin He) as (v & Hld & HPop & Hin').
    exists v. eexists. split; [exact HPop |]. split; [exact Hin' |].
    split; [reflexivity |]. split; [reflexivity |]. split; [discriminate |].
    intros _. split; [exact Hld |]. split; [reflexivity |].
    rewrite !Size_distance; try exact Hc; try apply Hin; try apply Hin'.
    cbn [head tail]. apply distance_increment_from; try exact Hc'; try apply Hin.
    unfold IsEmpty in He. apply Z.eqb_neq. exact He.
Qed.

(** X3: when the indices are in range, the buffer is empty exactly when
    [Size] is zero, and a buffer can be empty and full at once only when its
    [capacity] is 1. *)
Theorem IsEmpty_iff_Size (rb : RingBuffer) :
  0 < capacity <= PTRDIFF_MAX ->
  0 <= head rb < capacity ->
  0 <= tail rb < capacity ->
  (IsEmpty rb = true <-> Size rb = 0) /\
  (IsEmpty rb = true -> IsFull rb = true -> capacity = 1).
Proof.
  intros Hc Hh Ht. pose proof (object_size_limit Hc) as Hlim.
  rewrite Size_distance by assumption.
  unfold IsEmpty, IsFull. rewrite !Z.eqb_eq.
  split.
  - rewrite distance_same by assumption. reflexivity.
  - intros E1 E2.
    destruct (increment_cases (tail rb)) as [[? ?] | [? ?]]; try lia.
Qed.

(** X4: on an empty buffer whose indices are in range and whose [capacity]
    is at least two, [Push] of a value followed by [Pop] returns [true]
    twice, gives back that value and leaves the buffer empty. *)
Theorem Push_then_Pop (v item : T) (rb : RingBuffer) :
  2 <= capacity < 2 ^ size_bits ->
  in_range rb ->
  IsEmpty rb = true ->
  exists rb1 rb2,
    Push v rb = Some (true, rb1) /\
    Pop item rb1 = Some (true, v, rb2) /\
    IsEmpty rb2 = true /\
    contents rb2 = [].
Proof.
  intros Hc Hin He.
  assert (Hc1 : 0 < capacity) by lia.
  assert (Hc' : 0 < capacity < 2 ^ size_bits) by lia.
  assert (Hht : head rb = tail rb).
  { unfold IsEmpty in He. apply Z.eqb_eq. exact He. }
  assert (Hf : IsFull rb = false).
  { unfold IsFull. apply Z.eqb_neq.
    destruct (increment_cases (tail rb) Hc' ltac:(apply Hin)) as [[? ?] | [? ?]];
      destruct Hin as (_ & ? & ?); lia. }
  destruct (Push_when_not_full v rb Hc1 Hin Hf) as (d & Hst & HPush & Hin1).
  assert (He1 : IsEmpty (mkRingBuffer d (head rb) (increment (tail rb))) = false).
  { unfold IsEmpty. cbn [head tail]. apply Z.eqb_neq.
    unfold IsFull in Hf. apply Z.eqb_neq in Hf. auto. }
  destruct (Pop_when_not_empty item _ Hc1 Hin1 He1) as (v' & Hld & HPop & Hin2).
  cbn [head tail data] in *.
  rewrite Hht, (load_store_same _ _ _ _ Hst) in Hld. injection Hld as <-.
  eexists. eexists. split; [exact HPush |]. split; [exact HPop |].
  assert (He2 : IsEmpty (mkRingBuffer d (increment (head rb)) (increment (tail rb)))
                = true).
  { unfold IsEmpty. cbn [head tail]. rewrite Hht. apply Z.eqb_refl. }
  split; [exact He2 | apply contents_empty; exact He2].
Qed.

(** X5: after a [Pop] that returned [true] the buffer is not full, so the
    next [Push] returns [true]; after a [Push] that returned [true] the
    buffer is not empty, so the next [Pop] returns [true]. *)
Theorem Pop_makes_room (item x : T) (rb : RingBuffer) :
  0 < capacity < 2 ^ size_bits ->
  in_range rb ->
  (forall v rb',
      Pop item rb = Some (true, v, rb') ->
      IsFull rb' = false /\ exists rb'', Push x rb' = Some (true, rb'')) /\
  (forall rb',
      Push item rb = Some (true, rb') ->
      IsEmpty rb' = false /\ exists v rb'', Pop x rb' = Some (true, v, rb'')).
Proof.
  intros Hc Hin. split.
  - intros v rb' HPop.
    destruct (IsEmpty rb) eqn:He.
    { rewrite (Pop_when_empty item rb He) in HPop. discriminate. }
    destruct (Pop_when_not_empty item rb (proj1 Hc) Hin He) as (v' & _ & HPop' & Hin').
    rewrite HPop' in HPop. injection HPop as _ <-.
    assert (Hf : IsFull (mkRingBuffer (data rb) (increment (head rb)) (tail rb))
                 = false).
    { unfold IsFull. cbn [head tail]. apply Z.eqb_neq. intros E.
      apply increment_injective in E; try exact Hc; try apply Hin.
      unfold IsEmpty in He. apply Z.eqb_neq in He. congruence. }
    split; [exact Hf |].
    destruct (Push_when_not_full x _ (proj1 Hc) Hin' Hf) as (d & _ & HPush & _).
    eexists. exact HPush.
  - intros rb' HPush.
    destruct (IsFull rb) eqn:Hf.
    { rewrite (Push_when_full item rb Hf) in HPush. discriminate. }
    destruct (Push_when_not_full item rb (proj1 Hc) Hin Hf) as (d & _ & HPush' & Hin').
    rewrite HPush' in HPush. injection HPush as <-.
    assert (He : IsEmpty (mkRingBuffer d (head rb) (increment (tail rb))) = false).
    { unfold IsEmpty. cbn [head tail]. apply Z.eqb_neq.
      unfold IsFull in Hf. apply Z.eqb_neq in Hf. auto. }
    split; [exact He |].
    destruct (Pop_when_not_empty x _ (proj1 Hc) Hin' He) as (v & _ & HPop & _).
    eexists. eexists. exact HPop.
Qed.

Lemma contents_Push (rb : RingBuffer) (item : T) (d : list T) :
  0 < capacity < 2 ^ size_bits ->
  in_range rb ->
  IsFull rb = false ->
  store (data rb) (tail rb) item = Some d ->
  contents (mkRingBuffer d (head rb) (increment (tail rb))) = contents rb ++ [item].
Proof.
  intros Hc Hin Hf Hst.
  assert (Hin1 : in_range (mkRingBuffer d (head rb) (tail rb))).
  { destruct Hin as (Hlen & Hh & Ht). unfold in_range. cbn [data head tail].
    rewrite (store_length _ _ _ _ Hst). auto. }
  pose proof (contents_publish_tail (mkRingBuffer d (head rb) (tail rb)) item Hc Hin1)
    as Hpub.
  cbn [data head tail] in Hpub. rewrite Hpub.
  - rewrite (contents_store rb item d Hc Hin Hst). reflexivity.
  - apply (load_store_same _ _ _ _ Hst).
  - unfold IsFull in Hf. apply Z.eqb_neq. exact Hf.
Qed.

Lemma contents_Reset (rb : RingBuffer) : contents (Reset rb) = [].
Proof. apply contents_empty. reflexivity. Qed.

(** A call, [Reset] too, keeps the stored values at the end of the accepted
    ones and the delivered values a subsequence of what comes before. *)
Lemma do_call_sublist (c : call) (h : history) :
  0 < capacity < 2 ^ size_bits ->
  in_range (buffer h) ->
  (exists pre, accepted h = pre ++ contents (buffer h) /\
               delivered h `sublist_of` pre) ->
  exists h',
    do_call c h = Some h' /\
    in_range (buffer h') /\
    exists pre, accepted h' = pre ++ contents (buffer h') /\
                delivered h' `sublist_of` pre.
Proof.
  intros Hc Hin (pre & Hacc & Hsub).
  destruct c as [item | item |]; cbn [do_call].
  - destruct (IsFull (buffer h)) eqn:Hf.
    + rewrite (Push_when_full item _ Hf). eexists. split; [reflexivity |].
      split; [exact Hin |]. exists pre. auto.
    + destruct (Push_when_not_full item _ (proj1 Hc) Hin Hf) as (d & Hst & -> & Hin').
      eexists. split; [reflexivity |]. split; [exact Hin' |].
      exists pre. cbn [buffer accepted delivered].
      rewrite (contents_Push _ item d Hc Hin Hf Hst), Hacc, app_assoc. auto.
  - destruct (IsEmpty (buffer h)) eqn:He.
    + rewrite (Pop_when_empty item _ He). eexists. split; [reflexivity |].
      split; [exact Hin |]. exists pre. auto.
    + destruct (Pop_when_not_empty item _ (proj1 Hc) Hin He) as (v & Hld & -> & Hin').
      eexists. split; [reflexivity |]. split; [exact Hin' |].
      exists (pre ++ [v]). cbn [buffer accepted delivered].
      assert (Hne : head (buffer h) <> tail (buffer h)).
      { unfold IsEmpty in He. apply Z.eqb_neq. exact He. }
      rewrite Hacc, (contents_publish_head (buffer h) v Hc Hin Hne Hld).
      split; [rewrite <- app_assoc; reflexivity |].
      apply sublist_app; [exact Hsub | reflexivity].
  - eexists. split; [reflexivity |]. cbn [buffer accepted delivered].
    split; [apply Reset_in_range; [lia | exact Hin] |].
    exists (accepted h). rewrite contents_Reset, app_nil_r.
    split; [reflexivity |]. rewrite Hacc. apply sublist_inserts_r. exact Hsub.
Qed.

(** X6: after any sequence of calls on a new buffer, calls of [Reset]
    included, the delivered values are a subsequence of the accepted values
    (each was accepted before, none comes twice, the order is kept), and the
    stored values are the values accepted last. *)
Theorem delivered_sublist_of_accepted (cs : list call) (indeterminate : nat -> T) :
  0 < capacity < 2 ^ size_bits ->
  exists h,
    run cs (fresh indeterminate) = Some h /\
    delivered h `sublist_of` accepted h /\
    contents (buffer h) `suffix_of` accepted h.
Proof.
  intros Hc.
  assert (Hgen : forall (cs : list call) (h : history),
             in_range (buffer h) ->
             (exists pre, accepted h = pre ++ contents (buffer h) /\
                          delivered h `sublist_of` pre) ->
             exists h',
               run cs h = Some h' /\
               exists pre, accepted h' = pre ++ contents (buffer h') /\
                           delivered h' `sublist_of` pre).
  { clear cs. induction cs as [| c cs IH]; intros h Hin Hinv.
    - exists h. split; [reflexivity | exact Hinv].
    - destruct (do_call_sublist c h Hc Hin Hinv) as (h1 & Hcall & Hin1 & Hinv1).
      cbn [run]. rewrite Hcall. apply IH; assumption. }
  destruct (Hgen cs (fresh indeterminate)) as (h & Hrun & pre & Hacc & Hsub).
  - apply ctor_in_range. lia.
  - exists []. split; [apply fresh_fifo | reflexivity].
  - exists h. split; [exact Hrun |]. rewrite Hacc. split.
    + apply sublist_inserts_r. exact Hsub.
    + exists pre. reflexivity.
Qed.

(** What a call does to the indices and to the accepted values is a function
    of the indices alone, when the call stays inside [data]. *)
Lemma do_call_same_indices (c : call) (h1 h2 h1' h2' : history) :
  head (buffer h1) = head (buffer h2) ->
  tail (buffer h1) = tail (buffer h2) ->
  accepted h1 = accepted h2 ->
  do_call c h1 = Some h1' ->
  do_call c h2 = Some h2' ->
  head (buffer h1') = head (buffer h2') /\
  tail (buffer h1') = tail (buffer h2') /\
  accepted h1' = accepted h2'.
Proof.
  intros Hh Ht Hacc H1 H2.
  destruct c as [item | item |]; cbn [do_call] in H1, H2.
  - unfold Push in H1, H2. rewrite <- Hh, <- Ht in H2.
    destruct (negb (increment (tail (buffer h1)) =? head (buffer h1))).
    + destruct (store (data (buffer h1)) (tail (buffer h1)) item); [| discriminate].
      destruct (store (data (buffer h2)) (tail (buffer h1)) item); [| discriminate].
      injection H1 as <-. injection H2 as <-. cbn. rewrite Hacc. auto.
    + injection H1 as <-. injection H2 as <-. cbn. auto.
  - unfold Pop in H1, H2. rewrite <- Hh, <- Ht in H2.
    destruct (head (buffer h1) =? tail (buffer h1)).
    + injection H1 as <-. injection H2 as <-. cbn. auto.
    + destruct (load (data (buffer h1)) (head (buffer h1))); [| discriminate].
      destruct (load (data (buffer h2)) (head (buffer h1))); [| discriminate].
      injection H1 as <-. injection H2 as <-. cbn. auto.
  - injection H1 as <-. injection H2 as <-. cbn. auto.
Qed.

Lemma run_same_indices (cs : list call) :
  forall h1 h2 h1' h2' : history,
    head (buffer h1) = head (buffer h2) ->
    tail (buffer h1) = tail (buffer h2) ->
    accepted h1 = accepted h2 ->
    run cs h1 = Some h1' ->
    run cs h2 = Some h2' ->
    head (buffer h1') = head (buffer h2') /\
    tail (buffer h1') = tail (buffer h2') /\
    accepted h1' = accepted h2'.
Proof.
  induction cs as [| c cs IH]; intros h1 h2 h1' h2' Hh Ht Hacc H1 H2.
  - injection H1 as <-. injection H2 as <-. auto.
  - cbn [run] in H1, H2.
    destruct (do_call c h1) as [k1 |] eqn:E1; [| discriminate].
    destruct (do_call c h2) as [k2 |] eqn:E2; [| discriminate].
    destruct (do_call_same_indices c h1 h2 k1 k2 Hh Ht Hacc E1 E2) as (? & ? & ?).
    apply (IH k1 k2); assumption.
Qed.

(** X7: after [Reset], whatever the buffer held, calls of [Push] and [Pop]
    accept and deliver what the same calls accept and deliver on a new
    buffer, and leave the same indices and the same stored values. *)
Theorem Reset_like_new
    (rb : RingBuffer) (cs : list call) (indeterminate : nat -> T) :
  0 < capacity < 2 ^ size_bits ->
  in_range rb ->
  forallb is_transfer cs = true ->
  exists h1 h2,
    run cs (mkHistory (Reset rb) [] []) = Some h1 /\
    run cs (fresh indeterminate) = Some h2 /\
    accepted h1 = accepted h2 /\
    delivered h1 = delivered h2 /\
    contents (buffer h1) = contents (buffer h2) /\
    head (buffer h1) = head (buffer h2) /\
    tail (buffer h1) = tail (buffer h2).
Proof.
  intros Hc Hin Htr.
  destruct (run_fifo cs Hc Htr (mkHistory (Reset rb) [] []))
    as (h1 & Hrun1 & Hin1 & Hfifo1).
  { apply Reset_in_range; [lia | exact Hin]. }
  { unfold fifo. cbn [accepted delivered buffer]. rewrite contents_Reset. reflexivity. }
  destruct (run_fifo cs Hc Htr (fresh indeterminate)) as (h2 & Hrun2 & Hin2 & Hfifo2).
  { apply ctor_in_range. lia. }
  { apply fresh_fifo. }
  destruct (run_same_indices cs (mkHistory (Reset rb) [] []) (fresh indeterminate)
              h1 h2 eq_refl eq_refl eq_refl Hrun1 Hrun2)
    as (Hh & Ht & Hacc).
  exists h1, h2. split; [exact Hrun1 |]. split; [exact Hrun2 |].
  split; [exact Hacc |].
  unfold fifo in Hfifo1, Hfifo2. rewrite Hfifo1, Hfifo2 in Hacc.
  apply app_inj_2 in Hacc.
  - destruct Hacc as [Hd Hcont]. auto.
  - apply Nat2Z.inj.
    rewrite !contents_length by (try assumption; lia). rewrite Hh, Ht. reflexivity.
Qed.

(** ** The two contexts and the calls made one after the other *)

Lemma run_app (cs cs' : list call) :
  forall h : history,
    run (cs ++ cs') h
    = match run cs h with
      | Some h' => run cs' h'
      | None => None
      end.
Proof.
  induction cs as [| c cs IH]; intros h; [reflexivity |].
  cbn [app run]. destruct (do_call c h); [apply IH | reflexivity].
Qed.

(** A step of the producer is no call, or is the return of one [Push]. *)
Lemma producer_step_linearized (s : system) (h : history) :
  0 < capacity < 2 ^ size_bits ->
  system_ok s ->
  linearized s h ->
  exists s',
    producer_step s = Some s' /\
    system_ok s' /\
    exists calls h',
      forallb is_transfer calls = true /\
      run calls h = Some h' /\
      linearized s' h'.
Proof.
  intros Hc Hok Hlin.
  destruct (producer_step_ok s Hc Hok) as (s' & Hstep & Hok').
  exists s'. split; [exact Hstep |]. split; [exact Hok' |].
  destruct Hok as (Hin & _ & Hp & _).
  destruct s as [[rb acc del] pc scr cc]. destruct h as [rbh acch delh].
  unfold linearized, producer_ok in *.
  cbn [shared buffer accepted delivered producer consumer script] in *.
  destruct Hlin as (Ha & Hd & Hh & Ht & Hdata).
  unfold producer_step in Hstep.
  cbn [shared buffer accepted delivered producer consumer script] in Hstep.
  destruct pc as [| item ct nt | item ct nt | item ct nt | item ct nt].
  - exists [], (mkHistory rbh acch delh).
    split; [reflexivity |].
    split; [reflexivity |].
    destruct scr as [| item rest]; injection Hstep as <-; cbn; auto.
  - destruct Hp as [-> ->].
    destruct (increment (tail rb) =? head rb) eqn:E; cbn [negb] in Hstep;
      injection Hstep as <-.
    + exists [CallPush item], (mkHistory rbh acch delh).
      split; [reflexivity |].
      split; [| cbn; auto].
      cbn [run do_call buffer]. unfold Push. rewrite Hh, Ht, E. reflexivity.
    + exists [], (mkHistory rbh acch delh).
      split; [reflexivity |].
      split; [reflexivity | cbn; auto].
  - injection Hstep as <-. exists [], (mkHistory rbh acch delh).
    split; [reflexivity |].
    split; [reflexivity | cbn; auto].
  - destruct (store (data rb) ct item) as [d |] eqn:Hst; [| discriminate].
    injection Hstep as <-. exists [], (mkHistory rbh acch delh).
    split; [reflexivity |].
    split; [reflexivity |]. cbn. rewrite Hdata. auto.
  - injection Hstep as <-. destruct Hp as (-> & -> & Hne & _).
    exists [CallPush item],
      (mkHistory (mkRingBuffer (data rb) (head rbh) (increment (tail rbh)))
                 (acch ++ [item]) delh).
    split; [reflexivity |].
    split.
    + cbn [run do_call buffer]. unfold Push. rewrite Hh, Ht.
      apply Z.eqb_neq in Hne. rewrite Hne. cbn [negb]. rewrite Hdata.
      reflexivity.
    + cbn. rewrite Ha, Hd, Hh, Ht. auto.
Qed.

(** A step of the consumer is no call, or is the return of one [Pop]. *)
Lemma consumer_step_linearized (s : system) (h : history) (x : T) :
  0 < capacity < 2 ^ size_bits ->
  system_ok s ->
  linearized s h ->
  exists s',
    consumer_step s = Some s' /\
    system_ok s' /\
    exists calls h',
      forallb is_transfer calls = true /\
      run calls h = Some h' /\
      linearized s' h'.
Proof.
  intros Hc Hok Hlin.
  destruct (consumer_step_ok s Hc Hok) as (s' & Hstep & Hok').
  exists s'. split; [exact Hstep |]. split; [exact Hok' |].
  destruct Hok as (Hin & _ & Hp & Hco).
  destruct s as [[rb acc del] pc scr cc]. destruct h as [rbh acch delh].
  unfold linearized, producer_ok, consumer_ok in *.
  cbn [shared buffer accepted delivered producer consumer script] in *.
  destruct Hlin as (Ha & Hd & Hh & Ht & Hdata).
  unfold consumer_step in Hstep.
  cbn [shared buffer accepted delivered producer consumer script] in Hstep.
  destruct cc as [| ch | ch | ch | item ch].
  - injection Hstep as <-. exists [], (mkHistory rbh acch delh).
    split; [reflexivity |].
    split; [reflexivity | cbn; auto].
  - subst ch. destruct (head rb =? tail rb) eqn:E; injection Hstep as <-.
    + exists [CallPop x], (mkHistory rbh acch delh).
      split; [reflexivity |].
      split; [| cbn; auto].
      cbn [run do_call buffer]. unfold Pop. rewrite Hh, Ht, E. reflexivity.
    + exists [], (mkHistory rbh acch delh).
      split; [reflexivity |].
      split; [reflexivity | cbn; auto].
  - injection Hstep as <-. exists [], (mkHistory rbh acch delh).
    split; [reflexivity |].
    split; [reflexivity | cbn; auto].
  - destruct (load (data rb) ch) as [v |] eqn:Hld; [| discriminate].
    injection Hstep as <-. exists [], (mkHistory rbh acch delh).
    split; [reflexivity |].
    split; [reflexivity | cbn; auto].
  - injection Hstep as <-. destruct Hco as (-> & Hne & Hld).
    assert (Hldh : load (data rbh) (head rb) = Some item).
    { destruct pc as [| it ct nt | it ct nt | it ct nt | it ct nt];
        try (rewrite Hdata; exact Hld).
      destruct Hp as (-> & _).
      rewrite <- (load_store_other _ _ _ _ _ Hdata Hne). exact Hld. }
    exists [CallPop x],
      (mkHistory (mkRingBuffer (data rbh) (increment (head rbh)) (tail rbh))
                 acch (delh ++ [item])).
    split; [reflexivity |].
    split.
    + cbn [run do_call buffer]. unfold Pop. rewrite Hh, Ht.
      apply Z.eqb_neq in Hne. rewrite Hne, Hldh. reflexivity.
    + cbn. rewrite Ha, Hd, Hh, Ht. auto.
Qed.

Lemma interleave_linearized (schedule : list context) (x : T) (h0 : history) :
  0 < capacity < 2 ^ size_bits ->
  forall (s : system) (cs : list call) (h : history),
    system_ok s ->
    forallb is_transfer cs = true ->
    run cs h0 = Some h ->
    linearized s h ->
    exists s' cs' h',
      interleave schedule s = Some s' /\
      forallb is_transfer cs' = true /\
      run cs' h0 = Some h' /\
      linearized s' h'.
Proof.
  intros Hc. induction schedule as [| c schedule IH]; intros s cs h Hok Htr Hrun Hlin.
  - exists s, cs, h. auto.
  - assert (Hstep : exists s1,
               context_step c s = Some s1 /\ system_ok s1 /\
               exists calls h1,
                 forallb is_transfer calls = true /\
                 run calls h = Some h1 /\ linearized s1 h1).
    { destruct c; [apply producer_step_linearized
                  | apply (consumer_step_linearized s h x)]; assumption. }
    destruct Hstep as (s1 & Hs1 & Hok1 & calls & h1 & Htr1 & Hrun1 & Hlin1).
    cbn [interleave]. rewrite Hs1.
    apply (IH s1 (cs ++ calls) h1); try assumption.
    + rewrite forallb_app, Htr, Htr1. reflexivity.
    + rewrite run_app, Hrun. exact Hrun1.
Qed.

(** X8: whatever the order in which the producer and the consumer take their
    steps, there is a sequence of calls of [Push] and [Pop], made one after
    the other on a new buffer, that accepts and delivers the same values and
    ends with the same indices, and with the same slots whenever the
    producer is not between its [memcpy] and its assignment to [tail]. *)
Theorem interleaving_linearizable
    (schedule : list context) (items : list T) (indeterminate : nat -> T) (x : T) :
  0 < capacity < 2 ^ size_bits ->
  exists s cs h,
    interleave schedule (power_on indeterminate items) = Some s /\
    forallb is_transfer cs = true /\
    run cs (fresh indeterminate) = Some h /\
    accepted h = accepted (shared s) /\
    delivered h = delivered (shared s) /\
    head (buffer h) = head (buffer (shared s)) /\
    tail (buffer h) = tail (buffer (shared s)) /\
    ((forall item current_tail next_tail,
         producer s <> PushPublish item current_tail next_tail) ->
     buffer h = buffer (shared s)).
Proof.
  intros Hc.
  destruct (interleave_linearized schedule x (fresh indeterminate) Hc
              (power_on indeterminate items) [] (fresh indeterminate))
    as (s & cs & h & Hrun & Htr & Hseq & Ha & Hd & Hh & Ht & Hdata).
  - apply power_on_ok. lia.
  - reflexivity.
  - reflexivity.
  - unfold linearized, power_on. cbn. auto.
  - exists s, cs, h. split; [exact Hrun |]. split; [exact Htr |].
    split; [exact Hseq |]. split; [exact Ha |]. split; [exact Hd |].
    split; [exact Hh |]. split; [exact Ht |].
    intros Hnot.
    destruct h as [[dh hh th] acch delh].
    destruct s as [[[d hd tl] acc del] pc scr cc].
    cbn [shared buffer accepted delivered producer head tail data] in *.
    subst. f_equal.
    destruct pc; try exact Hdata.
    exfalso. eapply Hnot. reflexivity.
Qed.

End RingBuffer.

Arguments RingBuffer : clear implicits.
Arguments call : clear implicits.
Arguments history : clear implicits.
Arguments push_pc : clear implicits.
Arguments pop_pc : clear implicits.
Arguments system : clear implicits.

(** * A buffer with [capacity] 1 *)

(** With [capacity] 1 every call leaves both indices at zero and accepts
    nothing. *)
Lemma capacity_one_do_call {T : Type} (size_bits : Z) (c : call T) (h : history T) :
  head (buffer h) = 0 -> tail (buffer h) = 0 -> accepted h = [] ->
  exists h',
    do_call size_bits 1 c h = Some h' /\
    head (buffer h') = 0 /\ tail (buffer h') = 0 /\ accepted h' = [].
Proof.
  intros Hh Ht Hacc. destruct h as [rb acc del]. simpl in *.
  destruct c as [item | item |]; unfold do_call, Push, Pop, increment; simpl.
  - rewrite Z.mod_1_r, Hh. simpl. eexists. split; [reflexivity |]. auto.
  - rewrite Hh, Ht. simpl. eexists. split; [reflexivity |]. auto.
  - eexists. split; [reflexivity |]. auto.
Qed.

Lemma capacity_one_run {T : Type} (size_bits : Z) (cs : list (call T)) :
  forall h : history T,
    head (buffer h) = 0 -> tail (buffer h) = 0 -> accepted h = [] ->
    exists h',
      run size_bits 1 cs h = Some h' /\
      head (buffer h') = 0 /\ tail (buffer h') = 0 /\ accepted h' = [].
Proof.
  induction cs as [| c cs IH]; intros h Hh Ht Hacc.
  - exists h. simpl. auto.
  - destruct (capacity_one_do_call size_bits c h Hh Ht Hacc)
      as (h1 & Hcall & Hh1 & Ht1 & Hacc1).
    simpl. rewrite Hcall. apply IH; assumption.
Qed.

(** C10: with [capacity] 1, [increment] maps every index to zero, a buffer
    that has just been constructed is full and empty at once, and after any
    sequence of calls no value has been accepted, no value is stored, and
    [Push] returns [false] and changes nothing. *)
Theorem capacity_one_never_stores {T : Type} (size_bits : Z) :
  (forall idx : Z, increment size_bits 1 idx = 0) /\
  (forall indeterminate : nat -> T,
      IsFull size_bits 1 (RingBuffer_ctor 1 indeterminate) = true /\
      IsEmpty (RingBuffer_ctor 1 indeterminate) = true) /\
  (forall (cs : list (call T)) (indeterminate : nat -> T),
      exists h,
        run size_bits 1 cs (fresh 1 indeterminate) = Some h /\
        accepted h = [] /\
        contents size_bits 1 (buffer h) = [] /\
        forall item : T, Push size_bits 1 item (buffer h) = Some (false, buffer h)).
Proof.
  assert (Hinc : forall idx : Z, increment size_bits 1 idx = 0).
  { intros idx. unfold increment. apply Z.mod_1_r. }
  split; [exact Hinc |]. split.
  - intros indeterminate. unfold IsFull, IsEmpty. rewrite Hinc. split; reflexivity.
  - intros cs indeterminate.
    destruct (capacity_one_run size_bits cs (fresh 1 indeterminate))
      as (h & Hrun & Hh & Ht & Hacc); try reflexivity.
    exists h. split; [exact Hrun |]. split; [exact Hacc |]. split.
    + apply contents_empty. unfold IsEmpty. rewrite Hh, Ht. reflexivity.
    + intros item. apply Push_when_full. unfold IsFull.
      rewrite Hinc, Hh. reflexivity.
Qed.

(** * Two remarks *)

(** Why [Size] needs the limit on the size of [data]: with a [size_t] of 8
    bits and 200 slots, which is more than [PTRDIFF_MAX], the sum
    [tail - head + capacity] wraps and a full buffer reports 143. *)
Remark Size_wraps_beyond_object_limit :
  PTRDIFF_MAX 8 < 200 /\
  IsFull 8 200 (mkRingBuffer (@nil Z) 0 199) = true /\
  Size 8 200 (mkRingBuffer (@nil Z) 0 199) = 143.
Proof. split; [reflexivity |]. split; reflexivity. Qed.

(** The two contexts can be inside their [memcpy] at the same time, on
    different slots: here the consumer reads slot 0 while the producer
    writes slot 1. *)
Example copying_at_once :
  exists s,
    interleave 32 4
      [Producer; Producer; Producer; Producer; Producer;
       Producer; Producer; Consumer; Consumer; Producer; Consumer]
      (power_on 4 (fun _ => 0) [7; 8]) = Some s /\
    slot_being_written s = Some 1 /\
    slot_being_read s = Some 0.
Proof. eexists. split; [vm_compute; reflexivity |]. split; reflexivity. Qed.

(** * The claims at concrete buffers *)

(** The witnesses use the buffer of the unit tests, [RingBuffer<int, 4>], on a
    target with a [size_t] of 32 bits. *)

(** C1 at the calls of the test [TestPushPopSequence], with a [Push] on the
    full buffer added. *)
Lemma Push_Pop_fifo_witness :
  0 < 4 < 2 ^ 32 /\
  forallb is_transfer
    [CallPush 1; CallPush 2; CallPush 3; CallPush 4; CallPop 0; CallPush 4;
       CallPop 0; CallPop 0] = true /\
  exists h,
    run 32 4
      [CallPush 1; CallPush 2; CallPush 3; CallPush 4; CallPop 0; CallPush 4;
       CallPop 0; CallPop 0]
      (fresh 4 (fun _ => 0)) = Some h /\
    accepted h = delivered h ++ contents 32 4 (buffer h) /\
    (IsEmpty (buffer h) = true -> delivered h = accepted h) /\
    exists h',
      run 32 4 (repeat (CallPop 0) (Z.to_nat 4)) h = Some h' /\
      accepted h' = accepted h /\ delivered h' = accepted h.
Proof.
  split; [lia |]. split; [reflexivity |].
  apply (Push_Pop_fifo 32 4 _ (fun _ => 0) 0); [lia | reflexivity].
Defined.

(** C2 at a full buffer. *)
Lemma Push_full_unchanged_witness :
  IsFull 32 4 (mkRingBuffer [1; 2; 3; 0] 0 3) = true /\
  increment 32 4 (tail (mkRingBuffer [1; 2; 3; 0] 0 3))
  = head (mkRingBuffer [1; 2; 3; 0] 0 3) /\
  Push 32 4 9 (mkRingBuffer [1; 2; 3; 0] 0 3)
  = Some (false, mkRingBuffer [1; 2; 3; 0] 0 3).
Proof.
  split; [reflexivity |].
  apply (Push_full_unchanged 32 4 9 (mkRingBuffer [1; 2; 3; 0] 0 3)). reflexivity.
Defined.

(** C3 at an empty buffer. *)
Lemma Pop_empty_unchanged_witness :
  IsEmpty (mkRingBuffer [1; 2; 3; 0] 2 2) = true /\
  head (mkRingBuffer [1; 2; 3; 0] 2 2) = tail (mkRingBuffer [1; 2; 3; 0] 2 2) /\
  Pop 32 4 9 (mkRingBuffer [1; 2; 3; 0] 2 2)
  = Some (false, 9, mkRingBuffer [1; 2; 3; 0] 2 2).
Proof.
  split; [reflexivity |].
  apply (Pop_empty_unchanged 32 4 9 (mkRingBuffer [1; 2; 3; 0] 2 2)). reflexivity.
Defined.

(** C4 at the calls of the test [TestPushPopSequence] and at three calls of
    [Push], which fill the buffer. *)
Lemma Size_counts_stored_witness :
  0 < 4 <= PTRDIFF_MAX 32 /\
  (exists h,
      run 32 4 ([CallPush 1; CallPush 2; CallPush 3; CallPush 4; CallPop 0; CallPush 4;
       CallPop 0; CallPop 0] ++ [CallReset]) (fresh 4 (fun _ => 0)) = Some h /\
      Size 32 4 (buffer h) = (tail (buffer h) - head (buffer h) + 4) mod 4) /\
  (forallb is_transfer
    [CallPush 1; CallPush 2; CallPush 3; CallPush 4; CallPop 0; CallPush 4;
       CallPop 0; CallPop 0] = true /\
   exists h,
     run 32 4
      [CallPush 1; CallPush 2; CallPush 3; CallPush 4; CallPop 0; CallPush 4;
       CallPop 0; CallPop 0]
      (fresh 4 (fun _ => 0)) = Some h /\
     Size 32 4 (buffer h)
     = Z.of_nat (length (accepted h)) - Z.of_nat (length (delivered h))) /\
  (Z.of_nat (length [1; 2; 3]) <= 4 - 1 /\
   exists h,
     run 32 4 (map CallPush [1; 2; 3]) (fresh 4 (fun _ => 0)) = Some h /\
     accepted h = [1; 2; 3] /\
     delivered h = [] /\
     Size 32 4 (buffer h) = Z.of_nat (length [1; 2; 3]) /\
     (Z.of_nat (length [1; 2; 3]) = 4 - 1 ->
      IsFull 32 4 (buffer h) = true /\
      forall item : Z, Push 32 4 item (buffer h) = Some (false, buffer h))).
Proof.
  assert (H : 0 < 4 <= PTRDIFF_MAX 32) by (unfold PTRDIFF_MAX; simpl; lia).
  split; [exact H |].
  destruct (Size_counts_stored 32 4 (T := Z) H) as (A & B & C).
  split; [apply A |].
  split; [split; [reflexivity | apply B; reflexivity] |].
  split; [simpl; lia | apply C; simpl; lia].
Defined.

(** C5, as amended, at capacity 4. *)
Lemma ctor_empty_witness :
  2 <= 4 < 2 ^ 32 /\
  IsEmpty (RingBuffer_ctor 4 (fun _ => 0)) = true /\
  IsFull 32 4 (RingBuffer_ctor 4 (fun _ => 0)) = false /\
  Size 32 4 (RingBuffer_ctor 4 (fun _ => 0)) = 0 /\
  Pop 32 4 7 (RingBuffer_ctor 4 (fun _ => 0))
  = Some (false, 7, RingBuffer_ctor 4 (fun _ => 0)).
Proof.
  split; [lia |]. apply (ctor_empty 32 4 (fun _ => 0) 7). lia.
Defined.

(** C5 as stated fails at capacity 1: the new buffer is full. *)
Lemma ctor_capacity_one_full :
  0 < 1 /\
  IsFull 32 1 (RingBuffer_ctor 1 (fun _ => 0)) = true /\
  ~ (IsEmpty (RingBuffer_ctor 1 (fun _ => 0)) = true /\
     IsFull 32 1 (RingBuffer_ctor 1 (fun _ => 0)) = false /\
     Size 32 1 (RingBuffer_ctor 1 (fun _ => 0)) = 0 /\
     Pop 32 1 7 (RingBuffer_ctor 1 (fun _ => 0))
     = Some (false, 7, RingBuffer_ctor 1 (fun _ => 0))).
Proof.
  split; [lia |]. split; [reflexivity |].
  intros (_ & Hfull & _). vm_compute in Hfull. discriminate Hfull.
Qed.

(** C6 at a buffer whose write index has wrapped. *)
Lemma Reset_empty_witness :
  0 < 4 < 2 ^ 32 /\
  IsEmpty (Reset (mkRingBuffer [5; 2; 3; 4] 2 1)) = true /\
  Size 32 4 (Reset (mkRingBuffer [5; 2; 3; 4] 2 1)) = 0 /\
  Pop 32 4 7 (Reset (mkRingBuffer [5; 2; 3; 4] 2 1))
  = Some (false, 7, Reset (mkRingBuffer [5; 2; 3; 4] 2 1)).
Proof.
  split; [lia |]. apply (Reset_empty 32 4 (mkRingBuffer [5; 2; 3; 4] 2 1) 7). lia.
Defined.

(** C7 at a full buffer whose write index is below its read index. *)
Lemma IsFull_iff_Size_witness :
  0 < 4 <= PTRDIFF_MAX 32 /\
  0 <= head (mkRingBuffer [5; 2; 3; 4] 2 1) < 4 /\
  0 <= tail (mkRingBuffer [5; 2; 3; 4] 2 1) < 4 /\
  (IsFull 32 4 (mkRingBuffer [5; 2; 3; 4] 2 1) = true <->
   Size 32 4 (mkRingBuffer [5; 2; 3; 4] 2 1) = 4 - 1).
Proof.
  assert (H : 0 < 4 <= PTRDIFF_MAX 32) by (unfold PTRDIFF_MAX; simpl; lia).
  split; [exact H |].
  split; [simpl; lia |]. split; [simpl; lia |].
  apply (IsFull_iff_Size 32 4 (mkRingBuffer [5; 2; 3; 4] 2 1) H); simpl; lia.
Defined.

(** C8 at the calls of the test [TestPushPopSequence] followed by [Reset]. *)
Lemma indices_in_range_witness :
  0 < 4 /\
  in_range 4 (RingBuffer_ctor 4 (fun _ => 0)) /\
  (in_range 4 (mkRingBuffer [5; 2; 3; 4] 2 1) /\
   exists h',
     do_call 32 4 (CallPush 9) (mkHistory (mkRingBuffer [5; 2; 3; 4] 2 1) [] [])
     = Some h' /\
     in_range 4 (buffer h')) /\
  exists h,
    run 32 4 ([CallPush 1; CallPush 2; CallPush 3; CallPush 4; CallPop 0; CallPush 4;
       CallPop 0; CallPop 0] ++ [CallReset; CallPush 6]) (fresh 4 (fun _ => 0)) = Some h /\
    0 <= tail (buffer h) < 4 /\
    0 <= head (buffer h) < 4 /\
    0 <= Size 32 4 (buffer h) <= 4 - 1.
Proof.
  assert (H : 0 < 4) by lia.
  split; [exact H |].
  destruct (indices_in_range 32 4 (T := Z) H) as (A & B & C).
  split; [apply A |].
  assert (Hin : in_range 4 (mkRingBuffer [5; 2; 3; 4] 2 1)).
  { unfold in_range. simpl. split; [reflexivity | lia]. }
  split; [split; [exact Hin | apply (B (CallPush 9) (mkHistory _ [] [])); exact Hin] |].
  apply C.
Defined.

(** X20 at a schedule in which the consumer interrupts both calls of [Push]. *)
Lemma copy_before_publish_witness :
  0 < 4 < 2 ^ 32 /\
  exists s,
    interleave 32 4
      [Producer; Producer; Consumer; Consumer; Producer; Producer; Consumer;
       Producer; Consumer; Consumer; Producer; Producer; Consumer; Producer;
       Producer]
      (power_on 4 (fun _ => 0) [7; 8]) = Some s /\
    (forall item current_tail next_tail,
        producer s = PushPublish item current_tail next_tail ->
        tail (buffer (shared s)) = current_tail /\
        load (data (buffer (shared s))) current_tail = Some item) /\
    (forall current_head,
        consumer s = PopMemcpy current_head \/ consumer s = PopCopying current_head ->
        head (buffer (shared s)) = current_head /\
        slot_being_written s <> Some current_head /\
        exists v rest,
          load (data (buffer (shared s))) current_head = Some v /\
          contents 32 4 (buffer (shared s)) = v :: rest) /\
    (forall item current_head,
        consumer s = PopPublish item current_head ->
        head (buffer (shared s)) = current_head /\
        slot_being_written s <> Some current_head /\
        exists rest, contents 32 4 (buffer (shared s)) = item :: rest) /\
    accepted (shared s) = delivered (shared s) ++ contents 32 4 (buffer (shared s)).
Proof.
  split; [lia |].
  apply (copy_before_publish 32 4 _ [7; 8] (fun _ => 0)). lia.
Defined.

(** * LinBus *)

(** A property that holds of each of the 256 values of a byte when a scan of
    them finds it to hold. *)
Lemma byte_forallb (f : Z -> bool) :
  forallb f (map Z.of_nat (seq 0 256)) = true ->
  forall x : Z, 0 <= x < 256 -> f x = true.
Proof.
  intros H x Hx. rewrite forallb_forall in H. apply H.
  apply in_map_iff. exists (Z.to_nat x). split; [lia |].
  apply in_seq. lia.
Qed.

Lemma uint8_t_small (x : Z) : 0 <= x < 256 -> uint8_t x = x.
Proof. intros Hx. apply Z.mod_small. simpl. lia. Qed.

Lemma uint16_t_small (x : Z) : 0 <= x < 65536 -> uint16_t x = x.
Proof. intros Hx. apply Z.mod_small. simpl. lia. Qed.

Lemma lxor_0xff (x : Z) : 0 <= x < 256 -> uint8_t (Z.lxor x 0xff) = 255 - x.
Proof.
  intros Hx.
  apply Z.eqb_eq.
  apply (byte_forallb (fun x => uint8_t (Z.lxor x 0xff) =? 255 - x));
    [vm_compute; reflexivity | exact Hx].
Qed.

(** ** Checksum *)

Lemma end_around_carry_range (S : Z) :
  0 <= S ->
  0 <= end_around_carry S <= 255 /\
  (end_around_carry S = 0 <-> S = 0) /\
  end_around_carry S mod 255 = S mod 255.
Proof.
  intros HS. unfold end_around_carry.
  destruct (S =? 0) eqn:E.
  - apply Z.eqb_eq in E. subst S. split; [lia |]. split; [tauto | reflexivity].
  - apply Z.eqb_neq in E.
    pose proof (Z.mod_pos_bound (S - 1) 255 ltac:(lia)) as Hb.
    split; [lia |]. split; [lia |].
    rewrite Zplus_mod_idemp_l. f_equal. lia.
Qed.

Lemma end_around_carry_byte (b : Z) : 0 <= b < 256 -> end_around_carry b = b.
Proof.
  intros Hb. unfold end_around_carry.
  destruct (b =? 0) eqn:E; [apply Z.eqb_eq in E; lia |].
  apply Z.eqb_neq in E. rewrite Z.mod_small by lia. lia.
Qed.

(** One pass of the loop adds one byte to the folded sum. *)
Lemma Checksum_step_sum (S d : Z) :
  0 <= S -> 0 <= d < 256 ->
  Checksum_step (end_around_carry S) d = end_around_carry (S + d).
Proof.
  intros HS Hd.
  destruct (end_around_carry_range S HS) as (Hr & Hz & _).
  unfold Checksum_step.
  rewrite (uint16_t_small (end_around_carry S)) by lia.
  rewrite (uint16_t_small d) by lia.
  rewrite (uint16_t_small (end_around_carry S + d)) by lia.
  unfold end_around_carry in *.
  destruct (S =? 0) eqn:E.
  - apply Z.eqb_eq in E. subst S.
    replace (256 <=? 0 + d) with false by (symmetry; apply Z.leb_gt; lia).
    rewrite uint8_t_small by lia.
    destruct (0 + d =? 0) eqn:E'; [apply Z.eqb_eq in E'; lia |].
    apply Z.eqb_neq in E'. rewrite Z.mod_small by lia. lia.
  - apply Z.eqb_neq in E.
    destruct (S + d =? 0) eqn:E'; [apply Z.eqb_eq in E'; lia |].
    pose proof (Z.mod_pos_bound (S - 1) 255 ltac:(lia)) as Hb.
    pose proof (Z.div_mod (S - 1) 255 ltac:(lia)) as Hdm.
    destruct (256 <=? (S - 1) mod 255 + 1 + d) eqn:Hc.
    + apply Z.leb_le in Hc.
      rewrite uint16_t_small by lia. rewrite uint8_t_small by lia.
      assert ((S + d - 1) mod 255 = (S - 1) mod 255 + d - 255) as ->; [| lia].
      symmetry. apply Z.mod_unique with (q := (S - 1) / 255 + 1); lia.
    + apply Z.leb_gt in Hc. rewrite uint8_t_small by lia.
      assert ((S + d - 1) mod 255 = (S - 1) mod 255 + d) as ->; [| lia].
      symmetry. apply Z.mod_unique with (q := (S - 1) / 255); lia.
Qed.

Lemma byte_sum_nonneg (l : list Z) :
  Forall (fun b => 0 <= b < 256) l -> 0 <= byte_sum l.
Proof.
  unfold byte_sum. induction 1 as [| b l Hb _ IH]; simpl; lia.
Qed.

Lemma byte_at_Some (buf : list Z) (idx : Z) :
  0 <= idx < Z.of_nat (length buf) ->
  byte_at buf idx = buf !! Z.to_nat idx.
Proof.
  intros Hi. unfold byte_at.
  replace (0 <=? idx) with true by (symmetry; apply Z.leb_le; lia).
  replace (idx <? Z.of_nat (length buf)) with true by (symmetry; apply Z.ltb_lt; lia).
  reflexivity.
Qed.

(** The loop over bytes that are all inside [data] folds them into the sum. *)
Lemma Checksum_loop_sum (data : list Z) (n : nat) :
  Forall (fun b => 0 <= b < 256) data ->
  forall (S : Z) (pre : list Z),
    0 <= S ->
    (n <= length data)%nat ->
    Checksum_loop (end_around_carry S) (pre ++ data) (Z.of_nat (length pre)) n
    = Some (end_around_carry (S + byte_sum (take n data))).
Proof.
  intros Hbytes. revert data Hbytes.
  induction n as [| n IH]; intros data Hbytes S pre HS Hn.
  - cbn [Checksum_loop]. rewrite take_0. cbn [byte_sum foldr]. rewrite Z.add_0_r. reflexivity.
  - destruct data as [| d data]; [simpl in Hn; lia |].
    apply Forall_cons in Hbytes as [Hd Hbytes].
    cbn [Checksum_loop].
    rewrite byte_at_Some by (rewrite length_app; simpl; lia).
    rewrite Nat2Z.id, list_lookup_middle by reflexivity.
    rewrite Checksum_step_sum by assumption.
    replace (pre ++ d :: data) with ((pre ++ [d]) ++ data)
      by (rewrite <- app_assoc; reflexivity).
    replace (Z.of_nat (length pre) + 1) with (Z.of_nat (length (pre ++ [d])))
      by (rewrite length_app; simpl; lia).
    rewrite IH; [| exact Hbytes | lia | simpl in Hn; lia].
    simpl. do 2 f_equal. unfold byte_sum. lia.
Qed.

(** [Checksum] in closed form. *)
Lemma Checksum_sum (pid : Z) (data : list Z) (len : Z) :
  0 <= pid < 256 ->
  Forall (fun b => 0 <= b < 256) data ->
  0 <= len <= Z.of_nat (length data) ->
  Checksum pid data len
  = Some (255 - end_around_carry (pid + byte_sum (take (Z.to_nat len) data))).
Proof.
  intros Hp Hbytes Hlen. unfold Checksum.
  rewrite <- (end_around_carry_byte pid Hp) at 1.
  pose proof (Checksum_loop_sum data (Z.to_nat len) Hbytes pid []
                ltac:(lia) ltac:(lia)) as Hloop.
  change (Z.of_nat (length (@nil Z))) with 0 in Hloop.
  cbn [app] in Hloop. rewrite Hloop.
  f_equal. apply lxor_0xff.
  assert (Hs : 0 <= byte_sum (take (Z.to_nat len) data)).
  { apply byte_sum_nonneg. apply Forall_take. exact Hbytes. }
  destruct (end_around_carry_range (pid + byte_sum (take (Z.to_nat len) data)));
    lia.
Qed.

(** X9: when the [len] bytes are inside [data], [Checksum] reads no other
    byte and returns a byte: the inverted sum, with the carry added back, of
    the protected identifier and the [len] bytes.  The inverted checksum is
    congruent to that sum modulo 255, and the checksum is 0xff only when the
    protected identifier and all the bytes are zero. *)
Theorem Checksum_end_around_carry (pid : Z) (data : list Z) (len : Z) :
  0 <= pid < 256 ->
  Forall (fun b => 0 <= b < 256) data ->
  0 <= len <= Z.of_nat (length data) ->
  exists checksum,
    Checksum pid data len = Some checksum /\
    0 <= checksum < 256 /\
    checksum
    = 255 - end_around_carry (pid + byte_sum (take (Z.to_nat len) data)) /\
    (255 - checksum) mod 255
    = (pid + byte_sum (take (Z.to_nat len) data)) mod 255 /\
    (checksum = 255 <-> pid = 0 /\ byte_sum (take (Z.to_nat len) data) = 0).
Proof.
  intros Hp Hbytes Hlen.
  assert (Hs : 0 <= byte_sum (take (Z.to_nat len) data)).
  { apply byte_sum_nonneg. apply Forall_take. exact Hbytes. }
  destruct (end_around_carry_range
              (pid + byte_sum (take (Z.to_nat len) data)) ltac:(lia))
    as (Hr & Hz & Hm).
  eexists. split; [apply Checksum_sum; assumption |].
  split; [lia |]. split; [reflexivity |]. split.
  - rewrite <- Hm. f_equal. lia.
  - split.
    + intros E. assert (E0 : pid + byte_sum (take (Z.to_nat len) data) = 0)
        by (apply Hz; lia).
      lia.
    + intros [-> ->]. reflexivity.
Qed.

Lemma byte_sum_app (l k : list Z) : byte_sum (l ++ k) = byte_sum l + byte_sum k.
Proof.
  unfold byte_sum. induction l as [| b l IH]; simpl; [reflexivity |].
  rewrite IH. lia.
Qed.

Lemma byte_sum_Permutation (l k : list Z) : l ≡ₚ k -> byte_sum l = byte_sum k.
Proof.
  unfold byte_sum. induction 1; simpl; lia.
Qed.

(** Two sums that are not zero fold to the same byte exactly when they are
    congruent modulo 255. *)
Lemma end_around_carry_eq (S1 S2 : Z) :
  0 < S1 -> 0 < S2 ->
  end_around_carry S1 = end_around_carry S2 <-> S1 mod 255 = S2 mod 255.
Proof.
  intros H1 H2. split.
  - intros E.
    destruct (end_around_carry_range S1 ltac:(lia)) as (_ & _ & <-).
    destruct (end_around_carry_range S2 ltac:(lia)) as (_ & _ & <-).
    rewrite E. reflexivity.
  - intros E. unfold end_around_carry.
    destruct (S1 =? 0) eqn:E1; [apply Z.eqb_eq in E1; lia |].
    destruct (S2 =? 0) eqn:E2; [apply Z.eqb_eq in E2; lia |].
    f_equal. rewrite (Zminus_mod S1), (Zminus_mod S2), E. reflexivity.
Qed.

(** X10: a receiver that runs [Checksum] over the bytes and the checksum that
    follows them gets zero. *)
Theorem Checksum_of_frame_is_zero (pid : Z) (data : list Z) (checksum : Z) :
  0 <= pid < 256 ->
  Forall (fun b => 0 <= b < 256) data ->
  Checksum pid data (Z.of_nat (length data)) = Some checksum ->
  Checksum pid (data ++ [checksum]) (Z.of_nat (length data) + 1) = Some 0.
Proof.
  intros Hp Hbytes Hc.
  rewrite Checksum_sum in Hc by (try assumption; lia).
  rewrite Nat2Z.id, firstn_all in Hc. injection Hc as <-.
  pose proof (byte_sum_nonneg data Hbytes) as Hs.
  destruct (end_around_carry_range (pid + byte_sum data) ltac:(lia))
    as (Hr & Hz & Hm).
  rewrite Checksum_sum.
  - replace (Z.to_nat (Z.of_nat (length data) + 1))
      with (length (data ++ [255 - end_around_carry (pid + byte_sum data)]))
      by (rewrite length_app; simpl; lia).
    rewrite firstn_all, byte_sum_app. unfold byte_sum at 2. simpl.
    f_equal.
    set (S := pid + byte_sum data) in *.
    assert (E : end_around_carry (pid + (byte_sum data + (255 - end_around_carry S + 0)))
                = 255); [| lia].
    replace (pid + (byte_sum data + (255 - end_around_carry S + 0)))
      with (S + 255 - end_around_carry S) by (unfold S; lia).
    unfold end_around_carry at 1.
    destruct (S + 255 - end_around_carry S =? 0) eqn:E0;
      [apply Z.eqb_eq in E0; lia |].
    assert ((S + 255 - end_around_carry S - 1) mod 255 = 254) as ->; [| lia].
    symmetry.
    pose proof (Z.div_mod S 255 ltac:(lia)) as Hdm.
    pose proof (Z.div_mod (end_around_carry S) 255 ltac:(lia)) as Hdm'.
    apply Z.mod_unique with (q := S / 255 - end_around_carry S / 255); lia.
  - exact Hp.
  - apply Forall_app. split; [exact Hbytes |]. apply Forall_singleton. lia.
  - rewrite length_app. simpl. lia.
Qed.

(** Replacing one byte changes the folded sum exactly when the old and the
    new byte are not congruent modulo 255. *)
Lemma end_around_carry_replace (pid a a' : Z) (pre post : list Z) :
  0 < pid ->
  0 <= a -> 0 <= a' ->
  Forall (fun b => 0 <= b < 256) pre ->
  Forall (fun b => 0 <= b < 256) post ->
  end_around_carry (pid + byte_sum (pre ++ a :: post))
  = end_around_carry (pid + byte_sum (pre ++ a' :: post))
  <-> a mod 255 = a' mod 255.
Proof.
  intros Hp Ha Ha' Hpre Hpost.
  pose proof (byte_sum_nonneg pre Hpre) as Hs1.
  pose proof (byte_sum_nonneg post Hpost) as Hs2.
  rewrite !byte_sum_app.
  assert (Hcons : forall b, byte_sum (b :: post) = b + byte_sum post)
    by reflexivity.
  rewrite !Hcons.
  replace (pid + (byte_sum pre + (a + byte_sum post)))
    with (a + (pid + byte_sum pre + byte_sum post)) by lia.
  replace (pid + (byte_sum pre + (a' + byte_sum post)))
    with (a' + (pid + byte_sum pre + byte_sum post)) by lia.
  rewrite end_around_carry_eq by lia.
  split.
  - intros E.
    pose proof (Z.mod_pos_bound a 255 ltac:(lia)).
    pose proof (Z.mod_pos_bound a' 255 ltac:(lia)).
    assert (Hd : (a - a') mod 255 = 0).
    { replace (a - a')
        with ((a + (pid + byte_sum pre + byte_sum post))
              - (a' + (pid + byte_sum pre + byte_sum post))) by lia.
      rewrite Zminus_mod, E, Z.sub_diag. reflexivity. }
    rewrite Zminus_mod in Hd.
    apply Z.mod_divide in Hd; [| lia]. destruct Hd as [q Hq]. lia.
  - intros E. rewrite (Zplus_mod a), E, <- (Zplus_mod a'). reflexivity.
Qed.

(** X11: with a protected identifier that is not zero, replacing one byte of
    the data changes the checksum exactly when the old and the new byte are
    not congruent modulo 255: every change of one byte is detected, except
    the change between 0x00 and 0xff. *)
Theorem Checksum_byte_error (pid a a' : Z) (pre post : list Z) :
  0 < pid < 256 ->
  0 <= a < 256 -> 0 <= a' < 256 ->
  Forall (fun b => 0 <= b < 256) pre ->
  Forall (fun b => 0 <= b < 256) post ->
  Checksum pid (pre ++ a :: post) (Z.of_nat (length (pre ++ a :: post)))
  = Checksum pid (pre ++ a' :: post) (Z.of_nat (length (pre ++ a' :: post)))
  <-> a mod 255 = a' mod 255.
Proof.
  intros Hp Ha Ha' Hpre Hpost.
  assert (Hall : forall b, 0 <= b < 256 ->
                           Forall (fun b => 0 <= b < 256) (pre ++ b :: post)).
  { intros b Hb. apply Forall_app. split; [exact Hpre |].
    apply Forall_cons. split; assumption. }
  rewrite !Checksum_sum by (try apply Hall; try assumption; lia).
  rewrite !Nat2Z.id, !firstn_all.
  rewrite <- (end_around_carry_replace pid a a' pre post) by (try assumption; lia).
  split.
  - intros E. injection E as E. lia.
  - intros E. rewrite E. reflexivity.
Qed.

(** X12: the checksum does not depend on the order of the bytes. *)
Theorem Checksum_Permutation (pid : Z) (data data' : list Z) :
  0 <= pid < 256 ->
  Forall (fun b => 0 <= b < 256) data ->
  data ≡ₚ data' ->
  Checksum pid data (Z.of_nat (length data))
  = Checksum pid data' (Z.of_nat (length data')).
Proof.
  intros Hp Hbytes Hperm.
  assert (Hbytes' : Forall (fun b => 0 <= b < 256) data')
    by (rewrite <- Hperm; exact Hbytes).
  rewrite !Checksum_sum by (try assumption; lia).
  rewrite !Nat2Z.id, !firstn_all, (byte_sum_Permutation _ _ Hperm).
  reflexivity.
Qed.

(** ** Parity *)

(** A property that holds of each of the values below a bound when a scan of
    them finds it to hold. *)
Lemma range_forallb (n : nat) (f : Z -> bool) :
  forallb f (map Z.of_nat (seq 0 n)) = true ->
  forall x : Z, 0 <= x < Z.of_nat n -> f x = true.
Proof.
  intros H x Hx. rewrite forallb_forall in H. apply H.
  apply in_map_iff. exists (Z.to_nat x). split; [lia |].
  apply in_seq. lia.
Qed.

(** X13: [Parity] keeps the six bits of an identifier and sets at least one
    bit, so the identifier is read back from the protected identifier with
    the mask 0x3f, and two identifiers never have the same protected
    identifier. *)
Theorem Parity_keeps_identifier (id id' : Z) :
  0 <= id < 64 ->
  0 <= id' < 64 ->
  0 < Parity id < 256 /\
  Z.land (Parity id) 0x3f = id /\
  (Parity id = Parity id' -> id = id').
Proof.
  intros Hid Hid'.
  assert (H : forall x, 0 <= x < 64 ->
                        0 < Parity x < 256 /\ Z.land (Parity x) 0x3f = x).
  { intros x Hx.
    pose proof (range_forallb 64
                  (fun x => (0 <? Parity x) && (Parity x <? 256)
                            && (Z.land (Parity x) 0x3f =? x))
                  ltac:(vm_compute; reflexivity) x Hx) as Hscan.
    cbv beta in Hscan.
    apply andb_true_iff in Hscan as [Hscan E3].
    apply andb_true_iff in Hscan as [E1 E2].
    apply Z.ltb_lt in E1. apply Z.ltb_lt in E2. apply Z.eqb_eq in E3. lia. }
  destruct (H id Hid) as (Hr & Hm). destruct (H id' Hid') as (_ & Hm').
  split; [exact Hr |]. split; [exact Hm |].
  intros E. rewrite <- Hm, <- Hm', E. reflexivity.
Qed.

(** X14: a protected identifier with one of its eight bits inverted is not
    the protected identifier of any identifier. *)
Theorem Parity_single_bit_error (id id' k : Z) :
  0 <= id < 64 ->
  0 <= id' < 64 ->
  0 <= k < 8 ->
  Z.lxor (Parity id) (2 ^ k) <> Parity id'.
Proof.
  intros Hid Hid' Hk.
  pose proof (range_forallb 64
                (fun x =>
                   forallb (fun y =>
                              forallb (fun b => negb (Z.lxor (Parity x) (2 ^ b)
                                                      =? Parity y))
                                      (map Z.of_nat (seq 0 8)))
                           (map Z.of_nat (seq 0 64)))
                ltac:(vm_compute; reflexivity) id Hid) as Hscan.
  cbv beta in Hscan.
  pose proof (range_forallb 64 _ Hscan id' Hid') as Hscan'.
  cbv beta in Hscan'.
  pose proof (range_forallb 8 _ Hscan' k Hk) as Hscan''.
  cbv beta in Hscan''.
  apply negb_true_iff in Hscan''. apply Z.eqb_neq in Hscan''. exact Hscan''.
Qed.

(** X15: on every byte, [Parity] clears no bit and gives back a protected
    identifier unchanged, so a caller may pass either the identifier or the
    protected identifier. *)
Theorem Parity_idempotent (id : Z) :
  0 <= id < 256 ->
  Z.lor (Parity id) id = Parity id /\
  Parity (Parity id) = Parity id.
Proof.
  intros Hid.
  pose proof (byte_forallb
                (fun x => (Z.lor (Parity x) x =? Parity x)
                          && (Parity (Parity x) =? Parity x))
                ltac:(vm_compute; reflexivity) id Hid) as Hscan.
  cbv beta in Hscan.
  apply andb_true_iff in Hscan as [E1 E2].
  apply Z.eqb_eq in E1. apply Z.eqb_eq in E2. split; assumption.
Qed.

(** ** Request *)

Lemma put_Some (buf : list Z) (idx b : Z) :
  0 <= idx < Z.of_nat (length buf) ->
  0 <= b < 256 ->
  put buf idx b = Some (<[Z.to_nat idx := b]> buf).
Proof.
  intros Hi Hb. unfold put.
  replace (0 <=? idx) with true by (symmetry; apply Z.leb_le; lia).
  replace (idx <? Z.of_nat (length buf)) with true by (symmetry; apply Z.ltb_lt; lia).
  rewrite uint8_t_small by exact Hb. reflexivity.
Qed.

(** The loop of [Request] copies [n] bytes of [data] to [sendBuffer], two
    places further on, and leaves the other bytes of [sendBuffer]. *)
Lemma copy_payload_bytes (data : list Z) (n : nat) :
  Forall (fun b => 0 <= b < 256) data ->
  forall (i : nat) (sendBuffer : list Z),
    (i + n <= length data)%nat ->
    (i + n <= 255)%nat ->
    (i + 2 + n <= length sendBuffer)%nat ->
    copy_payload sendBuffer data (Z.of_nat i) n
    = Some (take (i + 2) sendBuffer ++ take n (drop i data)
            ++ drop (i + 2 + n) sendBuffer).
Proof.
  intros Hbytes. induction n as [| n IH]; intros i sendBuffer Hd H255 Hs.
  - cbn [copy_payload]. rewrite take_0, Nat.add_0_r. cbn [app].
    rewrite take_drop. reflexivity.
  - cbn [copy_payload].
    destruct (lookup_lt_is_Some_2 data i ltac:(lia)) as [d Hdi].
    assert (Hdb : 0 <= d < 256).
    { rewrite Forall_lookup in Hbytes. exact (Hbytes i d Hdi). }
    rewrite byte_at_Some by lia. rewrite Nat2Z.id, Hdi.
    rewrite put_Some by (try exact Hdb; lia).
    replace (uint8_t (Z.of_nat i + 1)) with (Z.of_nat (S i))
      by (rewrite uint8_t_small; lia).
    replace (Z.to_nat (Z.of_nat i + 2)) with (i + 2)%nat by lia.
    rewrite IH by (try rewrite length_insert; lia).
    f_equal.
    replace (S i + 2)%nat with (S (i + 2)) by lia.
    rewrite (take_S_r _ (i + 2) d) by (apply list_lookup_insert_eq; lia).
    rewrite take_insert_ge by lia.
    rewrite drop_insert_lt by lia.
    rewrite (drop_S data d i Hdi). cbn [take].
    rewrite <- app_assoc. cbn [app].
    replace (S (i + 2) + n)%nat with (i + 2 + S n)%nat by lia.
    reflexivity.
Qed.

(** What [Request] leaves in [sendBuffer] and the accesses to the hardware
    it makes, for a payload of at most eight bytes. *)
Lemma Request_result
    (sizeof_recvBuffer id : Z) (data : list Z) (len : Z) (sendBuffer : list Z) :
  0 <= id < 256 ->
  Forall (fun b => 0 <= b < 256) data ->
  0 <= len <= 8 ->
  len <= Z.of_nat (length data) ->
  len + 3 <= Z.of_nat (length sendBuffer) ->
  exists checksum,
    Checksum (Parity id) data len = Some checksum /\
    0 <= checksum < 256 /\
    Request sizeof_recvBuffer id data len sendBuffer
    = Some (0x55 :: Parity id :: take (Z.to_nat len) data
            ++ checksum :: drop (Z.to_nat (len + 3)) sendBuffer,
            [dma_disable_channel DMA_CHANNEL5;
             dma_set_number_of_data DMA_CHANNEL5 (if len =? 0 then 2 else len + 3);
             dma_disable_channel DMA_CHANNEL3;
             dma_set_memory_address_recvBuffer DMA_CHANNEL3;
             dma_set_number_of_data DMA_CHANNEL3 sizeof_recvBuffer;
             dma_clear_interrupt_flags_TCIF DMA_CHANNEL5;
             UART4_CR1_set_SBK;
             dma_enable_channel DMA_CHANNEL5;
             dma_enable_channel DMA_CHANNEL3]).
Proof.
  intros Hid Hbytes Hlen Hdata Hroom.
  assert (HP : 0 <= Parity id < 256).
  { unfold Parity, uint8_t. apply Z.mod_pos_bound. reflexivity. }
  pose proof (Checksum_sum (Parity id) data len HP Hbytes
                ltac:(lia)) as Hck.
  set (n := Z.to_nat len) in *.
  set (checksum := 255 - end_around_carry (Parity id + byte_sum (take n data))) in *.
  assert (Hcb : 0 <= checksum < 256).
  { assert (Hs : 0 <= byte_sum (take n data))
      by (apply byte_sum_nonneg, Forall_take, Hbytes).
    destruct (end_around_carry_range (Parity id + byte_sum (take n data)));
      unfold checksum; lia. }
  destruct sendBuffer as [| s0 [| s1 [| s2 rest]]]; try (simpl in Hroom; lia).
  assert (Hrest : (n <= length rest)%nat) by (simpl in Hroom; lia).
  exists checksum. split; [exact Hck |]. split; [exact Hcb |].
  unfold Request.
  replace (len >? 8) with false by lia.
  rewrite put_Some by (simpl; lia).
  unfold mbind, option_bind. cbn beta iota.
  rewrite put_Some by (simpl; lia). cbn beta iota.
  change (<[Z.to_nat 1 := Parity id]> (<[Z.to_nat 0 := 85]> (s0 :: s1 :: s2 :: rest)))
    with (0x55 :: Parity id :: s2 :: rest).
  pose proof (copy_payload_bytes data n Hbytes 0 (0x55 :: Parity id :: s2 :: rest)
                ltac:(lia) ltac:(lia) ltac:(simpl; lia)) as Hcopy.
  change (Z.of_nat 0) with 0 in Hcopy.
  cbn [Nat.add firstn skipn app] in Hcopy. rewrite drop_0 in Hcopy.
  fold n. rewrite Hcopy. cbn beta iota.
  rewrite byte_at_Some by (simpl; lia).
  change (Z.to_nat 1) with 1%nat. cbn [lookup list_lookup]. cbn beta iota.
  rewrite Hck. cbn beta iota.
  assert (Hlt : (n < length (s2 :: rest))%nat) by (simpl; lia).
  destruct (lookup_lt_is_Some_2 (s2 :: rest) n Hlt) as [x Hx].
  rewrite (drop_S _ x n Hx).
  assert (Hlen_take : length (take n data) = n) by (rewrite length_take; lia).
  rewrite put_Some; [| | exact Hcb].
  2:{ cbn [length]. rewrite length_app, Hlen_take. cbn [length]. lia. }
  replace (Z.to_nat (len + 2)) with (S (S n)) by lia.
  cbn [list_insert insert].
  replace (Z.to_nat (len + 3)) with (S (S (S n))) by lia. cbn [skipn].
  assert (Hins : <[n := checksum]> (take n data ++ x :: drop (S n) (s2 :: rest))
                 = take n data ++ checksum :: drop n rest).
  { rewrite insert_app_r_alt by lia. rewrite Hlen_take, Nat.sub_diag.
    reflexivity. }
  setoid_rewrite Hins.
  reflexivity.
Qed.

(** X16: for a payload of at most eight bytes and a [sendBuffer] with room
    for [len + 3] bytes, [Request] stays inside [sendBuffer] and [data] and
    leaves in [sendBuffer] the sync byte 0x55, the protected identifier, the
    payload and the checksum of the two; the DMA is told to send all of them,
    or only the sync byte and the protected identifier when there is no
    payload. *)
Theorem Request_frame
    (sizeof_recvBuffer id : Z) (data : list Z) (len : Z) (sendBuffer : list Z) :
  0 <= id < 256 ->
  Forall (fun b => 0 <= b < 256) data ->
  0 <= len <= 8 ->
  len <= Z.of_nat (length data) ->
  len + 3 <= Z.of_nat (length sendBuffer) ->
  exists checksum calls,
    Checksum (Parity id) data len = Some checksum /\
    Request sizeof_recvBuffer id data len sendBuffer
    = Some (0x55 :: Parity id :: take (Z.to_nat len) data
            ++ checksum :: drop (Z.to_nat (len + 3)) sendBuffer,
            calls) /\
    transmitted
      (0x55 :: Parity id :: take (Z.to_nat len) data
       ++ checksum :: drop (Z.to_nat (len + 3)) sendBuffer)
      calls
    = if len =? 0 then [0x55; Parity id]
      else 0x55 :: Parity id :: take (Z.to_nat len) data ++ [checksum].
Proof.
  intros Hid Hbytes Hlen Hdata Hroom.
  destruct (Request_result sizeof_recvBuffer id data len sendBuffer
              Hid Hbytes Hlen Hdata Hroom) as (checksum & Hck & _ & HReq).
  exists checksum. eexists. split; [exact Hck |]. split; [exact HReq |].
  cbn [transmitted].
  assert (Hlen_take : length (take (Z.to_nat len) data) = Z.to_nat len)
    by (rewrite length_take; lia).
  destruct (len =? 0) eqn:E0.
  - reflexivity.
  - apply Z.eqb_neq in E0.
    replace (Z.to_nat (len + 3)) with (S (S (S (Z.to_nat len)))) at 1 by lia.
    cbn [firstn]. do 2 f_equal.
    rewrite take_app_ge by lia. rewrite Hlen_take.
    replace (S (Z.to_nat len) - Z.to_nat len)%nat with 1%nat by lia.
    reflexivity.
Qed.

(** ** HasReceived *)

Lemma int_small (x : Z) : - 2 ^ 31 <= x < 2 ^ 31 -> int x = x.
Proof.
  intros Hx. unfold int. rewrite Z.mod_small by lia. lia.
Qed.

Lemma Parity_range (id : Z) : 0 <= id < 256 -> 0 < Parity id < 256.
Proof.
  intros Hid.
  pose proof (byte_forallb (fun x => (0 <? Parity x) && (Parity x <? 256))
                ltac:(vm_compute; reflexivity) id Hid) as Hscan.
  cbv beta in Hscan. apply andb_true_iff in Hscan as [E1 E2].
  apply Z.ltb_lt in E1. apply Z.ltb_lt in E2. lia.
Qed.

(** What [HasReceived] answers when the DMA has stored, after [pre], a byte
    [p] at [pidIndex], after [mid] the [payload] at [payloadIndex], and
    after it a byte [c], and has room left for the bytes of [rest]. *)
Lemma HasReceived_frame (id p c : Z) (pre mid payload rest : list Z) :
  0 <= p < 256 ->
  Forall (fun b => 0 <= b < 256) (payload ++ c :: rest) ->
  (length payload <= 8)%nat ->
  Z.of_nat (length (pre ++ p :: mid ++ payload ++ c :: rest)) < 2 ^ 31 ->
  HasReceived (Z.of_nat (length (pre ++ p :: mid))) (Z.of_nat (length pre))
    (pre ++ p :: mid ++ payload ++ c :: rest)
    (Z.of_nat (length rest)) id (Z.of_nat (length payload))
  = Some ((p =? Parity id)
          && (255 - end_around_carry (p + byte_sum payload) =? c)).
Proof.
  intros Hp Hbytes H8 Hsize.
  assert (Hassoc : pre ++ p :: mid ++ payload ++ c :: rest
                   = (pre ++ p :: mid) ++ payload ++ c :: rest).
  { rewrite <- app_assoc. reflexivity. }
  unfold HasReceived.
  replace (Z.of_nat (length payload) >? 8) with false by lia.
  assert (Hcount : int (Z.of_nat (length (pre ++ p :: mid ++ payload ++ c :: rest))
                        - Z.of_nat (length rest))
                   = Z.of_nat (length payload)
                     + Z.of_nat (length (pre ++ p :: mid)) + 1).
  { assert (Hl : length (pre ++ p :: mid ++ payload ++ c :: rest)
                 = (length (pre ++ p :: mid) + length payload + S (length rest))%nat).
    { rewrite Hassoc, !length_app. cbn [length]. lia. }
    rewrite Hl in *. rewrite int_small; lia. }
  rewrite Hcount, Z.eqb_refl.
  rewrite (byte_at_Some _ (Z.of_nat (length pre)))
    by (split; [lia |]; rewrite length_app; cbn [length]; lia).
  rewrite !Nat2Z.id, list_lookup_middle by reflexivity.
  unfold mbind, option_bind. cbn beta iota.
  destruct (p =? Parity id) eqn:E; [| reflexivity].
  rewrite Hassoc at 1. rewrite drop_app_length.
  rewrite Checksum_sum;
    [| exact Hp | exact Hbytes | rewrite length_app; lia].
  rewrite ?Nat2Z.id, take_app_length.
  rewrite byte_at_Some.
  - replace (Z.to_nat (Z.of_nat (length payload)
                       + Z.of_nat (length (pre ++ p :: mid))))
      with (length ((pre ++ p :: mid) ++ payload))
      by (rewrite !length_app; cbn [length]; lia).
    replace (pre ++ p :: mid ++ payload ++ c :: rest)
      with (((pre ++ p :: mid) ++ payload) ++ c :: rest)
      by (rewrite <- !app_assoc; reflexivity).
    rewrite list_lookup_middle by reflexivity. reflexivity.
  - rewrite Hassoc, !length_app. cbn [length]. lia.
Qed.

(** X17: [HasReceived] accepts a reception that holds the protected
    identifier of [id] at [pidIndex], a payload of at most eight bytes at
    [payloadIndex] and the checksum [Checksum] gives for them right after the
    payload, when the DMA has stored exactly these bytes. *)
Theorem HasReceived_accepts_frame
    (id checksum : Z) (pre mid payload rest : list Z) :
  0 <= id < 256 ->
  Forall (fun b => 0 <= b < 256) (payload ++ rest) ->
  (length payload <= 8)%nat ->
  Z.of_nat (length (pre ++ Parity id :: mid ++ payload ++ checksum :: rest))
  < 2 ^ 31 ->
  Checksum (Parity id) payload (Z.of_nat (length payload)) = Some checksum ->
  HasReceived (Z.of_nat (length (pre ++ Parity id :: mid))) (Z.of_nat (length pre))
    (pre ++ Parity id :: mid ++ payload ++ checksum :: rest)
    (Z.of_nat (length rest)) id (Z.of_nat (length payload))
  = Some true.
Proof.
  intros Hid Hbytes H8 Hsize Hck.
  pose proof (Parity_range id Hid) as HP.
  apply Forall_app in Hbytes as [Hpay Hrest].
  rewrite Checksum_sum in Hck by (try assumption; lia).
  rewrite Nat2Z.id, firstn_all in Hck. injection Hck as Hck.
  assert (Hcb : 0 <= checksum < 256).
  { pose proof (byte_sum_nonneg payload Hpay).
    destruct (end_around_carry_range (Parity id + byte_sum payload)); lia. }
  rewrite HasReceived_frame; try assumption; try lia.
  - rewrite Z.eqb_refl, Hck, Z.eqb_refl. reflexivity.
  - apply Forall_app. split; [exact Hpay |]. apply Forall_cons. split; assumption.
Qed.

(** X18: when one byte of the payload of such a reception has been replaced
    by a byte that is not congruent to it modulo 255, [HasReceived] returns
    [false]. *)
Theorem HasReceived_rejects_byte_error
    (id checksum a a' : Z) (pre mid before after rest : list Z) :
  0 <= id < 256 ->
  0 <= a < 256 -> 0 <= a' < 256 ->
  a mod 255 <> a' mod 255 ->
  Forall (fun b => 0 <= b < 256) (before ++ after ++ rest) ->
  (length (before ++ a :: after) <= 8)%nat ->
  Z.of_nat (length (pre ++ Parity id :: mid
                    ++ (before ++ a' :: after) ++ checksum :: rest))
  < 2 ^ 31 ->
  Checksum (Parity id) (before ++ a :: after)
    (Z.of_nat (length (before ++ a :: after))) = Some checksum ->
  HasReceived (Z.of_nat (length (pre ++ Parity id :: mid))) (Z.of_nat (length pre))
    (pre ++ Parity id :: mid ++ (before ++ a' :: after) ++ checksum :: rest)
    (Z.of_nat (length rest)) id (Z.of_nat (length (before ++ a' :: after)))
  = Some false.
Proof.
  intros Hid Ha Ha' Hne Hbytes H8 Hsize Hck.
  pose proof (Parity_range id Hid) as HP.
  apply Forall_app in Hbytes as [Hbefore Hbytes].
  apply Forall_app in Hbytes as [Hafter Hrest].
  assert (Hpay : forall b, 0 <= b < 256 ->
                           Forall (fun b => 0 <= b < 256) (before ++ b :: after)).
  { intros b Hb. apply Forall_app. split; [exact Hbefore |].
    apply Forall_cons. split; assumption. }
  assert (Hcb : 0 <= checksum < 256).
  { rewrite Checksum_sum in Hck by (try apply Hpay; try assumption; lia).
    injection Hck as <-.
    assert (0 <= byte_sum (take (Z.to_nat (Z.of_nat (length (before ++ a :: after))))
                                (before ++ a :: after)))
      by (apply byte_sum_nonneg, Forall_take, Hpay, Ha).
    match goal with
    | |- 0 <= 255 - end_around_carry ?S < 256 =>
        destruct (end_around_carry_range S); lia
    end. }
  assert (Hlen : length (before ++ a' :: after) = length (before ++ a :: after))
    by (rewrite !length_app; reflexivity).
  rewrite HasReceived_frame; try assumption; try lia.
  - rewrite Z.eqb_refl. cbn [andb]. f_equal. apply Z.eqb_neq. intros E.
    apply Hne.
    apply (end_around_carry_replace (Parity id) a a' before after);
      try assumption; try lia.
    rewrite Checksum_sum in Hck by (try apply Hpay; try assumption; lia).
    rewrite Nat2Z.id, firstn_all in Hck. injection Hck as Hck. lia.
  - apply Forall_app. split; [apply Hpay, Ha' |].
    apply Forall_cons. split; assumption.
Qed.

(** X19: when the frame [Request] hands to the DMA, with a payload of one to
    eight bytes, is what the receiver stores after the bytes [pre] (the
    echo of the frame on the one wire of the bus), [HasReceived] accepts it
    for the same identifier and length, with the protected identifier one
    place and the payload two places after the sync byte. *)
Theorem Request_echo_accepted
    (sizeof_recvBuffer id : Z) (data : list Z) (len : Z)
    (sendBuffer sendBuffer' : list Z) (calls : list hw_call)
    (pre rest : list Z) :
  0 <= id < 256 ->
  Forall (fun b => 0 <= b < 256) data ->
  Forall (fun b => 0 <= b < 256) rest ->
  1 <= len <= 8 ->
  len <= Z.of_nat (length data) ->
  len + 3 <= Z.of_nat (length sendBuffer) ->
  Z.of_nat (length pre) + len + 3 + Z.of_nat (length rest) < 2 ^ 31 ->
  Request sizeof_recvBuffer id data len sendBuffer = Some (sendBuffer', calls) ->
  HasReceived (Z.of_nat (length pre) + 2) (Z.of_nat (length pre) + 1)
    (pre ++ transmitted sendBuffer' calls ++ rest)
    (Z.of_nat (length rest)) id len
  = Some true.
Proof.
  intros Hid Hbytes Hrest Hlen Hdata Hroom Hsize HReq.
  destruct (Request_result sizeof_recvBuffer id data len sendBuffer Hid Hbytes
              ltac:(lia) Hdata Hroom) as (checksum & Hck & Hcb & HReq0).
  rewrite HReq0 in HReq. injection HReq as <- <-.
  set (payload := take (Z.to_nat len) data) in *.
  assert (Hpl : length payload = Z.to_nat len)
    by (unfold payload; rewrite length_take; lia).
  assert (Hpay : Forall (fun b => 0 <= b < 256) payload)
    by (apply Forall_take, Hbytes).
  pose proof (Parity_range id Hid) as HP.
  assert (Htx : transmitted
                  (0x55 :: Parity id :: payload
                   ++ checksum :: drop (Z.to_nat (len + 3)) sendBuffer)
                  [dma_disable_channel DMA_CHANNEL5;
                   dma_set_number_of_data DMA_CHANNEL5
                     (if len =? 0 then 2 else len + 3);
                   dma_disable_channel DMA_CHANNEL3;
                   dma_set_memory_address_recvBuffer DMA_CHANNEL3;
                   dma_set_number_of_data DMA_CHANNEL3 sizeof_recvBuffer;
                   dma_clear_interrupt_flags_TCIF DMA_CHANNEL5;
                   UART4_CR1_set_SBK;
                   dma_enable_channel DMA_CHANNEL5;
                   dma_enable_channel DMA_CHANNEL3]
                = 0x55 :: Parity id :: payload ++ [checksum]).
  { cbn [transmitted]. replace (len =? 0) with false by lia.
    replace (Z.to_nat (len + 3)) with (S (S (S (length payload)))) at 1 by lia.
    cbn [firstn]. do 2 f_equal.
    rewrite take_app_ge by lia.
    replace (S (length payload) - length payload)%nat with 1%nat by lia.
    reflexivity. }
  rewrite Htx.
  rewrite Checksum_sum in Hck by (try assumption; lia).
  injection Hck as Hck. fold payload in Hck.
  pose proof (HasReceived_frame id (Parity id) checksum (pre ++ [0x55]) []
                payload rest ltac:(lia)) as Hfr.
  replace (Z.of_nat (length ((pre ++ [0x55]) ++ [Parity id])))
    with (Z.of_nat (length pre) + 2) in Hfr
    by (rewrite !length_app; cbn [length]; lia).
  replace (Z.of_nat (length (pre ++ [0x55])))
    with (Z.of_nat (length pre) + 1) in Hfr
    by (rewrite !length_app; cbn [length]; lia).
  replace (Z.of_nat (length payload)) with len in Hfr by lia.
  replace ((pre ++ [0x55]) ++ Parity id :: [] ++ payload ++ checksum :: rest)
    with (pre ++ (0x55 :: Parity id :: payload ++ [checksum]) ++ rest) in Hfr.
  - rewrite Hfr.
    + rewrite Z.eqb_refl, Hck, Z.eqb_refl. reflexivity.
    + apply Forall_app. split; [exact Hpay |]. apply Forall_cons. split; assumption.
    + lia.
    + rewrite !length_app. cbn [length]. rewrite !length_app. cbn [length]. lia.
  - rewrite <- !app_assoc. cbn [app]. rewrite <- !app_assoc. reflexivity.
Qed.

(** * The further properties at concrete inputs *)

(** X1 at a buffer of four slots that holds two values. *)
Lemma Push_returns_witness :
  0 < 4 <= PTRDIFF_MAX 32 /\
  in_range 4 (mkRingBuffer [1; 2; 3; 0] 0 2) /\
  exists rb',
    Push 32 4 9 (mkRingBuffer [1; 2; 3; 0] 0 2)
    = Some (negb (IsFull 32 4 (mkRingBuffer [1; 2; 3; 0] 0 2)), rb') /\
    in_range 4 rb' /\
    head rb' = head (mkRingBuffer [1; 2; 3; 0] 0 2) /\
    (IsFull 32 4 (mkRingBuffer [1; 2; 3; 0] 0 2) = true ->
     rb' = mkRingBuffer [1; 2; 3; 0] 0 2) /\
    (IsFull 32 4 (mkRingBuffer [1; 2; 3; 0] 0 2) = false ->
     tail rb' = increment 32 4 (tail (mkRingBuffer [1; 2; 3; 0] 0 2)) /\
     Size 32 4 rb' = Size 32 4 (mkRingBuffer [1; 2; 3; 0] 0 2) + 1 /\
     load (data rb') (tail (mkRingBuffer [1; 2; 3; 0] 0 2)) = Some 9 /\
     forall idx : Z,
       idx <> tail (mkRingBuffer [1; 2; 3; 0] 0 2) ->
       load (data rb') idx = load (data (mkRingBuffer [1; 2; 3; 0] 0 2)) idx).
Proof.
  assert (H1 : 0 < 4 <= PTRDIFF_MAX 32) by (unfold PTRDIFF_MAX; simpl; lia).
  assert (H2 : in_range 4 (mkRingBuffer [1; 2; 3; 0] 0 2))
    by (unfold in_range; simpl; split; [reflexivity | lia]).
  split; [exact H1 |]. split; [exact H2 |].
  exact (Push_returns 32 4 9 (mkRingBuffer [1; 2; 3; 0] 0 2) H1 H2).
Defined.

(** X2 at the same buffer. *)
Lemma Pop_returns_witness :
  0 < 4 <= PTRDIFF_MAX 32 /\
  in_range 4 (mkRingBuffer [1; 2; 3; 0] 0 2) /\
  exists v rb',
    Pop 32 4 9 (mkRingBuffer [1; 2; 3; 0] 0 2)
    = Some (negb (IsEmpty (mkRingBuffer [1; 2; 3; 0] 0 2)), v, rb') /\
    in_range 4 rb' /\
    tail rb' = tail (mkRingBuffer [1; 2; 3; 0] 0 2) /\
    data rb' = data (mkRingBuffer [1; 2; 3; 0] 0 2) /\
    (IsEmpty (mkRingBuffer [1; 2; 3; 0] 0 2) = true ->
     v = 9 /\ rb' = mkRingBuffer [1; 2; 3; 0] 0 2) /\
    (IsEmpty (mkRingBuffer [1; 2; 3; 0] 0 2) = false ->
     load (data (mkRingBuffer [1; 2; 3; 0] 0 2))
          (head (mkRingBuffer [1; 2; 3; 0] 0 2)) = Some v /\
     head rb' = increment 32 4 (head (mkRingBuffer [1; 2; 3; 0] 0 2)) /\
     Size 32 4 rb' = Size 32 4 (mkRingBuffer [1; 2; 3; 0] 0 2) - 1).
Proof.
  assert (H1 : 0 < 4 <= PTRDIFF_MAX 32) by (unfold PTRDIFF_MAX; simpl; lia).
  assert (H2 : in_range 4 (mkRingBuffer [1; 2; 3; 0] 0 2))
    by (unfold in_range; simpl; split; [reflexivity | lia]).
  split; [exact H1 |]. split; [exact H2 |].
  exact (Pop_returns 32 4 9 (mkRingBuffer [1; 2; 3; 0] 0 2) H1 H2).
Defined.

(** X3 at an empty buffer whose indices are not zero. *)
Lemma IsEmpty_iff_Size_witness :
  0 < 4 <= PTRDIFF_MAX 32 /\
  0 <= head (mkRingBuffer [1; 2; 3; 0] 2 2) < 4 /\
  0 <= tail (mkRingBuffer [1; 2; 3; 0] 2 2) < 4 /\
  (IsEmpty (mkRingBuffer [1; 2; 3; 0] 2 2) = true <->
   Size 32 4 (mkRingBuffer [1; 2; 3; 0] 2 2) = 0) /\
  (IsEmpty (mkRingBuffer [1; 2; 3; 0] 2 2) = true ->
   IsFull 32 4 (mkRingBuffer [1; 2; 3; 0] 2 2) = true -> 4 = 1).
Proof.
  assert (H1 : 0 < 4 <= PTRDIFF_MAX 32) by (unfold PTRDIFF_MAX; simpl; lia).
  assert (H2 : 0 <= head (mkRingBuffer [1; 2; 3; 0] 2 2) < 4) by (simpl; lia).
  assert (H3 : 0 <= tail (mkRingBuffer [1; 2; 3; 0] 2 2) < 4) by (simpl; lia).
  split; [exact H1 |]. split; [exact H2 |]. split; [exact H3 |].
  exact (IsEmpty_iff_Size 32 4 (mkRingBuffer [1; 2; 3; 0] 2 2) H1 H2 H3).
Defined.

(** X4 at an empty buffer whose write index is at the last
    slot. *)
Lemma Push_then_Pop_witness :
  2 <= 4 < 2 ^ 32 /\
  in_range 4 (mkRingBuffer [1; 2; 3; 0] 3 3) /\
  IsEmpty (mkRingBuffer [1; 2; 3; 0] 3 3) = true /\
  exists rb1 rb2,
    Push 32 4 42 (mkRingBuffer [1; 2; 3; 0] 3 3) = Some (true, rb1) /\
    Pop 32 4 0 rb1 = Some (true, 42, rb2) /\
    IsEmpty rb2 = true /\
    contents 32 4 rb2 = [].
Proof.
  assert (H1 : 2 <= 4 < 2 ^ 32) by lia.
  assert (H2 : in_range 4 (mkRingBuffer [1; 2; 3; 0] 3 3))
    by (unfold in_range; simpl; split; [reflexivity | lia]).
  split; [exact H1 |]. split; [exact H2 |]. split; [reflexivity |].
  exact (Push_then_Pop 32 4 42 0 (mkRingBuffer [1; 2; 3; 0] 3 3) H1 H2 eq_refl).
Defined.

(** X5 at a full buffer and at an empty one. *)
Lemma Pop_makes_room_witness :
  0 < 4 < 2 ^ 32 /\
  in_range 4 (mkRingBuffer [1; 2; 3; 0] 0 3) /\
  (forall v rb',
      Pop 32 4 0 (mkRingBuffer [1; 2; 3; 0] 0 3) = Some (true, v, rb') ->
      IsFull 32 4 rb' = false /\
      exists rb'', Push 32 4 7 rb' = Some (true, rb'')) /\
  (forall rb',
      Push 32 4 0 (mkRingBuffer [1; 2; 3; 0] 0 3) = Some (true, rb') ->
      IsEmpty rb' = false /\
      exists v rb'', Pop 32 4 7 rb' = Some (true, v, rb'')).
Proof.
  assert (H1 : 0 < 4 < 2 ^ 32) by lia.
  assert (H2 : in_range 4 (mkRingBuffer [1; 2; 3; 0] 0 3))
    by (unfold in_range; simpl; split; [reflexivity | lia]).
  split; [exact H1 |]. split; [exact H2 |].
  exact (Pop_makes_room 32 4 0 7 (mkRingBuffer [1; 2; 3; 0] 0 3) H1 H2).
Defined.

(** X6 at calls with a [Reset] between them. *)
Lemma delivered_sublist_of_accepted_witness :
  0 < 4 < 2 ^ 32 /\
  exists h,
    run 32 4
      [CallPush 1; CallPush 2; CallPop 0; CallPush 3; CallReset; CallPush 4;
       CallPop 0; CallPop 0]
      (fresh 4 (fun _ => 0)) = Some h /\
    delivered h `sublist_of` accepted h /\
    contents 32 4 (buffer h) `suffix_of` accepted h.
Proof.
  assert (H1 : 0 < 4 < 2 ^ 32) by lia.
  split; [exact H1 |].
  exact (delivered_sublist_of_accepted 32 4 _ (fun _ => 0) H1).
Defined.

(** X7 at a full buffer and the calls of the test
    [TestPushPopSequence]. *)
Lemma Reset_like_new_witness :
  0 < 4 < 2 ^ 32 /\
  in_range 4 (mkRingBuffer [5; 2; 3; 4] 2 1) /\
  forallb is_transfer
    [CallPush 1; CallPush 2; CallPush 3; CallPop 0; CallPush 4; CallPop 0;
     CallPop 0; CallPop 0] = true /\
  exists h1 h2,
    run 32 4
      [CallPush 1; CallPush 2; CallPush 3; CallPop 0; CallPush 4; CallPop 0;
       CallPop 0; CallPop 0]
      (mkHistory (Reset (mkRingBuffer [5; 2; 3; 4] 2 1)) [] []) = Some h1 /\
    run 32 4
      [CallPush 1; CallPush 2; CallPush 3; CallPop 0; CallPush 4; CallPop 0;
       CallPop 0; CallPop 0]
      (fresh 4 (fun _ => 0)) = Some h2 /\
    accepted h1 = accepted h2 /\
    delivered h1 = delivered h2 /\
    contents 32 4 (buffer h1) = contents 32 4 (buffer h2) /\
    head (buffer h1) = head (buffer h2) /\
    tail (buffer h1) = tail (buffer h2).
Proof.
  assert (H1 : 0 < 4 < 2 ^ 32) by lia.
  assert (H2 : in_range 4 (mkRingBuffer [5; 2; 3; 4] 2 1))
    by (unfold in_range; simpl; split; [reflexivity | lia]).
  split; [exact H1 |]. split; [exact H2 |]. split; [reflexivity |].
  exact (Reset_like_new 32 4 (mkRingBuffer [5; 2; 3; 4] 2 1)
           [CallPush 1; CallPush 2; CallPush 3; CallPop 0; CallPush 4; CallPop 0;
            CallPop 0; CallPop 0]
           (fun _ => 0) H1 H2 eq_refl).
Defined.

(** X8 at a schedule in which the consumer
    interrupts both calls of [Push]. *)
Lemma interleaving_linearizable_witness :
  0 < 4 < 2 ^ 32 /\
  exists s cs h,
    interleave 32 4
      [Producer; Producer; Consumer; Consumer; Producer; Producer; Consumer;
       Producer; Consumer; Consumer; Producer; Producer; Consumer; Producer;
       Producer]
      (power_on 4 (fun _ => 0) [7; 8]) = Some s /\
    forallb is_transfer cs = true /\
    run 32 4 cs (fresh 4 (fun _ => 0)) = Some h /\
    accepted h = accepted (shared s) /\
    delivered h = delivered (shared s) /\
    head (buffer h) = head (buffer (shared s)) /\
    tail (buffer h) = tail (buffer (shared s)) /\
    ((forall item current_tail next_tail,
         producer s <> PushPublish item current_tail next_tail) ->
     buffer h = buffer (shared s)).
Proof.
  assert (H1 : 0 < 4 < 2 ^ 32) by lia.
  split; [exact H1 |].
  exact (interleaving_linearizable 32 4 _ [7; 8] (fun _ => 0) 0 H1).
Defined.

Ltac bytes := repeat (constructor; [lia |]); constructor.

(** X9 at three bytes whose sum has two carries. *)
Lemma Checksum_end_around_carry_witness :
  0 <= 0x4a < 256 /\
  Forall (fun b => 0 <= b < 256) [0x55; 0x93; 0xe5] /\
  0 <= 3 <= Z.of_nat (length [0x55; 0x93; 0xe5]) /\
  exists checksum,
    Checksum 0x4a [0x55; 0x93; 0xe5] 3 = Some checksum /\
    0 <= checksum < 256 /\
    checksum
    = 255 - end_around_carry
              (0x4a + byte_sum (take (Z.to_nat 3) [0x55; 0x93; 0xe5])) /\
    (255 - checksum) mod 255
    = (0x4a + byte_sum (take (Z.to_nat 3) [0x55; 0x93; 0xe5])) mod 255 /\
    (checksum = 255 <->
     0x4a = 0 /\ byte_sum (take (Z.to_nat 3) [0x55; 0x93; 0xe5]) = 0).
Proof.
  assert (H1 : 0 <= 0x4a < 256) by lia.
  assert (H2 : Forall (fun b => 0 <= b < 256) [0x55; 0x93; 0xe5]) by bytes.
  assert (H3 : 0 <= 3 <= Z.of_nat (length [0x55; 0x93; 0xe5])) by (simpl; lia).
  split; [exact H1 |]. split; [exact H2 |]. split; [exact H3 |].
  exact (Checksum_end_around_carry 0x4a [0x55; 0x93; 0xe5] 3 H1 H2 H3).
Defined.

(** X10 at the same bytes, whose checksum is 0xe6. *)
Lemma Checksum_of_frame_is_zero_witness :
  0 <= 0x4a < 256 /\
  Forall (fun b => 0 <= b < 256) [0x55; 0x93; 0xe5] /\
  Checksum 0x4a [0x55; 0x93; 0xe5] (Z.of_nat (length [0x55; 0x93; 0xe5]))
  = Some 0xe6 /\
  Checksum 0x4a ([0x55; 0x93; 0xe5] ++ [0xe6])
    (Z.of_nat (length [0x55; 0x93; 0xe5]) + 1) = Some 0.
Proof.
  assert (H1 : 0 <= 0x4a < 256) by lia.
  assert (H2 : Forall (fun b => 0 <= b < 256) [0x55; 0x93; 0xe5]) by bytes.
  assert (H3 : Checksum 0x4a [0x55; 0x93; 0xe5]
                 (Z.of_nat (length [0x55; 0x93; 0xe5])) = Some 0xe6)
    by reflexivity.
  split; [exact H1 |]. split; [exact H2 |]. split; [exact H3 |].
  exact (Checksum_of_frame_is_zero 0x4a [0x55; 0x93; 0xe5] 0xe6 H1 H2 H3).
Defined.

(** X11 at a byte 0x00 replaced by 0xff, which the
    checksum does not show. *)
Lemma Checksum_byte_error_witness :
  0 < 0x11 < 256 /\
  0 <= 0 < 256 /\
  0 <= 0xff < 256 /\
  Forall (fun b => 0 <= b < 256) [1] /\
  Forall (fun b => 0 <= b < 256) [3] /\
  (Checksum 0x11 ([1] ++ 0 :: [3]) (Z.of_nat (length ([1] ++ 0 :: [3])))
   = Checksum 0x11 ([1] ++ 0xff :: [3]) (Z.of_nat (length ([1] ++ 0xff :: [3])))
   <-> 0 mod 255 = 0xff mod 255).
Proof.
  assert (H1 : 0 < 0x11 < 256) by lia.
  assert (H2 : 0 <= 0 < 256) by lia.
  assert (H3 : 0 <= 0xff < 256) by lia.
  assert (H4 : Forall (fun b => 0 <= b < 256) [1]) by bytes.
  assert (H5 : Forall (fun b => 0 <= b < 256) [3]) by bytes.
  split; [exact H1 |]. split; [exact H2 |]. split; [exact H3 |].
  split; [exact H4 |]. split; [exact H5 |].
  exact (Checksum_byte_error 0x11 0 0xff [1] [3] H1 H2 H3 H4 H5).
Defined.

(** X12 at two bytes exchanged. *)
Lemma Checksum_Permutation_witness :
  0 <= 0x11 < 256 /\
  Forall (fun b => 0 <= b < 256) [1; 2; 3] /\
  [1; 2; 3] ≡ₚ [2; 1; 3] /\
  Checksum 0x11 [1; 2; 3] (Z.of_nat (length [1; 2; 3]))
  = Checksum 0x11 [2; 1; 3] (Z.of_nat (length [2; 1; 3])).
Proof.
  assert (H1 : 0 <= 0x11 < 256) by lia.
  assert (H2 : Forall (fun b => 0 <= b < 256) [1; 2; 3]) by bytes.
  assert (H3 : [1; 2; 3] ≡ₚ [2; 1; 3]) by apply perm_swap.
  split; [exact H1 |]. split; [exact H2 |]. split; [exact H3 |].
  exact (Checksum_Permutation 0x11 [1; 2; 3] [2; 1; 3] H1 H2 H3).
Defined.

(** X13 at the identifiers 0x3c and 0x3d. *)
Lemma Parity_keeps_identifier_witness :
  0 <= 0x3c < 64 /\
  0 <= 0x3d < 64 /\
  0 < Parity 0x3c < 256 /\
  Z.land (Parity 0x3c) 0x3f = 0x3c /\
  (Parity 0x3c = Parity 0x3d -> 0x3c = 0x3d).
Proof.
  assert (H1 : 0 <= 0x3c < 64) by lia.
  assert (H2 : 0 <= 0x3d < 64) by lia.
  split; [exact H1 |]. split; [exact H2 |].
  exact (Parity_keeps_identifier 0x3c 0x3d H1 H2).
Defined.

(** X14 at bit 6 of the protected identifier of
    0x3c. *)
Lemma Parity_single_bit_error_witness :
  0 <= 0x3c < 64 /\
  0 <= 0x3c < 64 /\
  0 <= 6 < 8 /\
  Z.lxor (Parity 0x3c) (2 ^ 6) <> Parity 0x3c.
Proof.
  assert (H1 : 0 <= 0x3c < 64) by lia.
  assert (H3 : 0 <= 6 < 8) by lia.
  split; [exact H1 |]. split; [exact H1 |]. split; [exact H3 |].
  exact (Parity_single_bit_error 0x3c 0x3c 6 H1 H1 H3).
Defined.

(** X15 at a byte with bit 7 set. *)
Lemma Parity_idempotent_witness :
  0 <= 0xc1 < 256 /\
  Z.lor (Parity 0xc1) 0xc1 = Parity 0xc1 /\
  Parity (Parity 0xc1) = Parity 0xc1.
Proof.
  assert (H1 : 0 <= 0xc1 < 256) by lia.
  split; [exact H1 |].
  exact (Parity_idempotent 0xc1 H1).
Defined.

(** X16 at a payload of three bytes and buffers of the sizes
    11 and 12. *)
Lemma Request_frame_witness :
  0 <= 0x11 < 256 /\
  Forall (fun b => 0 <= b < 256) [1; 2; 3] /\
  0 <= 3 <= 8 /\
  3 <= Z.of_nat (length [1; 2; 3]) /\
  3 + 3 <= Z.of_nat (length (replicate 11 0)) /\
  exists checksum calls,
    Checksum (Parity 0x11) [1; 2; 3] 3 = Some checksum /\
    Request 12 0x11 [1; 2; 3] 3 (replicate 11 0)
    = Some (0x55 :: Parity 0x11 :: take (Z.to_nat 3) [1; 2; 3]
            ++ checksum :: drop (Z.to_nat (3 + 3)) (replicate 11 0),
            calls) /\
    transmitted
      (0x55 :: Parity 0x11 :: take (Z.to_nat 3) [1; 2; 3]
       ++ checksum :: drop (Z.to_nat (3 + 3)) (replicate 11 0))
      calls
    = if 3 =? 0 then [0x55; Parity 0x11]
      else 0x55 :: Parity 0x11 :: take (Z.to_nat 3) [1; 2; 3] ++ [checksum].
Proof.
  assert (H1 : 0 <= 0x11 < 256) by lia.
  assert (H2 : Forall (fun b => 0 <= b < 256) [1; 2; 3]) by bytes.
  assert (H3 : 0 <= 3 <= 8) by lia.
  assert (H4 : 3 <= Z.of_nat (length [1; 2; 3])) by (simpl; lia).
  assert (H5 : 3 + 3 <= Z.of_nat (length (replicate 11 0))) by (simpl; lia).
  split; [exact H1 |]. split; [exact H2 |]. split; [exact H3 |].
  split; [exact H4 |]. split; [exact H5 |].
  exact (Request_frame 12 0x11 [1; 2; 3] 3 (replicate 11 0) H1 H2 H3 H4 H5).
Defined.

(** X17 at a reception of a break, the sync byte,
    the protected identifier, three bytes and their checksum. *)
Lemma HasReceived_accepts_frame_witness :
  0 <= 0x11 < 256 /\
  Forall (fun b => 0 <= b < 256) ([1; 2; 3] ++ [0; 0; 0; 0; 0]) /\
  (length [1; 2; 3] <= 8)%nat /\
  Z.of_nat (length ([0; 0x55] ++ Parity 0x11 :: [] ++ [1; 2; 3]
                    ++ 232 :: [0; 0; 0; 0; 0])) < 2 ^ 31 /\
  Checksum (Parity 0x11) [1; 2; 3] (Z.of_nat (length [1; 2; 3])) = Some 232 /\
  HasReceived (Z.of_nat (length ([0; 0x55] ++ Parity 0x11 :: [])))
    (Z.of_nat (length [0; 0x55]))
    ([0; 0x55] ++ Parity 0x11 :: [] ++ [1; 2; 3] ++ 232 :: [0; 0; 0; 0; 0])
    (Z.of_nat (length [0; 0; 0; 0; 0])) 0x11 (Z.of_nat (length [1; 2; 3]))
  = Some true.
Proof.
  assert (H1 : 0 <= 0x11 < 256) by lia.
  assert (H2 : Forall (fun b => 0 <= b < 256) ([1; 2; 3] ++ [0; 0; 0; 0; 0]))
    by (simpl; bytes).
  assert (H3 : (length [1; 2; 3] <= 8)%nat) by (simpl; lia).
  assert (H4 : Z.of_nat (length ([0; 0x55] ++ Parity 0x11 :: [] ++ [1; 2; 3]
                                 ++ 232 :: [0; 0; 0; 0; 0])) < 2 ^ 31)
    by (simpl; lia).
  assert (H5 : Checksum (Parity 0x11) [1; 2; 3] (Z.of_nat (length [1; 2; 3]))
               = Some 232) by reflexivity.
  split; [exact H1 |]. split; [exact H2 |]. split; [exact H3 |].
  split; [exact H4 |]. split; [exact H5 |].
  exact (HasReceived_accepts_frame 0x11 232 [0; 0x55] [] [1; 2; 3] [0; 0; 0; 0; 0]
           H1 H2 H3 H4 H5).
Defined.

(** X18 at the same reception with the byte 2
    received as 6. *)
Lemma HasReceived_rejects_byte_error_witness :
  0 <= 0x11 < 256 /\
  0 <= 2 < 256 /\
  0 <= 6 < 256 /\
  2 mod 255 <> 6 mod 255 /\
  Forall (fun b => 0 <= b < 256) ([1] ++ [3] ++ [0; 0; 0; 0; 0]) /\
  (length ([1] ++ 2 :: [3]) <= 8)%nat /\
  Z.of_nat (length ([0; 0x55] ++ Parity 0x11 :: []
                    ++ ([1] ++ 6 :: [3]) ++ 232 :: [0; 0; 0; 0; 0])) < 2 ^ 31 /\
  Checksum (Parity 0x11) ([1] ++ 2 :: [3]) (Z.of_nat (length ([1] ++ 2 :: [3])))
  = Some 232 /\
  HasReceived (Z.of_nat (length ([0; 0x55] ++ Parity 0x11 :: [])))
    (Z.of_nat (length [0; 0x55]))
    ([0; 0x55] ++ Parity 0x11 :: [] ++ ([1] ++ 6 :: [3]) ++ 232 :: [0; 0; 0; 0; 0])
    (Z.of_nat (length [0; 0; 0; 0; 0])) 0x11
    (Z.of_nat (length ([1] ++ 6 :: [3])))
  = Some false.
Proof.
  assert (H1 : 0 <= 0x11 < 256) by lia.
  assert (H2 : 0 <= 2 < 256) by lia.
  assert (H3 : 0 <= 6 < 256) by lia.
  assert (H4 : 2 mod 255 <> 6 mod 255) by (intros E; discriminate E).
  assert (H5 : Forall (fun b => 0 <= b < 256) ([1] ++ [3] ++ [0; 0; 0; 0; 0]))
    by (simpl; bytes).
  assert (H6 : (length ([1] ++ 2 :: [3]) <= 8)%nat) by (simpl; lia).
  assert (H7 : Z.of_nat (length ([0; 0x55] ++ Parity 0x11 :: []
                                 ++ ([1] ++ 6 :: [3]) ++ 232 :: [0; 0; 0; 0; 0]))
               < 2 ^ 31) by (simpl; lia).
  assert (H8 : Checksum (Parity 0x11) ([1] ++ 2 :: [3])
                 (Z.of_nat (length ([1] ++ 2 :: [3]))) = Some 232)
    by reflexivity.
  split; [exact H1 |]. split; [exact H2 |]. split; [exact H3 |].
  split; [exact H4 |]. split; [exact H5 |]. split; [exact H6 |].
  split; [exact H7 |]. split; [exact H8 |].
  exact (HasReceived_rejects_byte_error 0x11 232 2 6 [0; 0x55] [] [1] [3]
           [0; 0; 0; 0; 0] H1 H2 H3 H4 H5 H6 H7 H8).
Defined.

(** X19 at the frame of the witness of X16, stored
    after the byte of the break in a [recvBuffer] of 12 bytes. *)
Lemma Request_echo_accepted_witness :
  0 <= 0x11 < 256 /\
  Forall (fun b => 0 <= b < 256) [1; 2; 3] /\
  Forall (fun b => 0 <= b < 256) [0; 0; 0; 0; 0] /\
  1 <= 3 <= 8 /\
  3 <= Z.of_nat (length [1; 2; 3]) /\
  3 + 3 <= Z.of_nat (length (replicate 11 0)) /\
  Z.of_nat (length [0]) + 3 + 3 + Z.of_nat (length [0; 0; 0; 0; 0]) < 2 ^ 31 /\
  Request 12 0x11 [1; 2; 3] 3 (replicate 11 0)
  = Some ([0x55; 0x11; 1; 2; 3; 232; 0; 0; 0; 0; 0],
          [dma_disable_channel DMA_CHANNEL5;
           dma_set_number_of_data DMA_CHANNEL5 6;
           dma_disable_channel DMA_CHANNEL3;
           dma_set_memory_address_recvBuffer DMA_CHANNEL3;
           dma_set_number_of_data DMA_CHANNEL3 12;
           dma_clear_interrupt_flags_TCIF DMA_CHANNEL5;
           UART4_CR1_set_SBK;
           dma_enable_channel DMA_CHANNEL5;
           dma_enable_channel DMA_CHANNEL3]) /\
  HasReceived (Z.of_nat (length [0]) + 2) (Z.of_nat (length [0]) + 1)
    ([0] ++ transmitted [0x55; 0x11; 1; 2; 3; 232; 0; 0; 0; 0; 0]
              [dma_disable_channel DMA_CHANNEL5;
               dma_set_number_of_data DMA_CHANNEL5 6;
               dma_disable_channel DMA_CHANNEL3;
               dma_set_memory_address_recvBuffer DMA_CHANNEL3;
               dma_set_number_of_data DMA_CHANNEL3 12;
               dma_clear_interrupt_flags_TCIF DMA_CHANNEL5;
               UART4_CR1_set_SBK;
               dma_enable_channel DMA_CHANNEL5;
               dma_enable_channel DMA_CHANNEL3]
         ++ [0; 0; 0; 0; 0])
    (Z.of_nat (length [0; 0; 0; 0; 0])) 0x11 3
  = Some true.
Proof.
  assert (H1 : 0 <= 0x11 < 256) by lia.
  assert (H2 : Forall (fun b => 0 <= b < 256) [1; 2; 3]) by bytes.
  assert (H3 : Forall (fun b => 0 <= b < 256) [0; 0; 0; 0; 0]) by bytes.
  assert (H4 : 1 <= 3 <= 8) by lia.
  assert (H5 : 3 <= Z.of_nat (length [1; 2; 3])) by (simpl; lia).
  assert (H6 : 3 + 3 <= Z.of_nat (length (replicate 11 0))) by (simpl; lia).
  assert (H7 : Z.of_nat (length [0]) + 3 + 3 + Z.of_nat (length [0; 0; 0; 0; 0])
               < 2 ^ 31) by (simpl; lia).
  assert (H8 : Request 12 0x11 [1; 2; 3] 3 (replicate 11 0)
               = Some ([0x55; 0x11; 1; 2; 3; 232; 0; 0; 0; 0; 0],
                       [dma_disable_channel DMA_CHANNEL5;
                        dma_set_number_of_data DMA_CHANNEL5 6;
                        dma_disable_channel DMA_CHANNEL3;
                        dma_set_memory_address_recvBuffer DMA_CHANNEL3;
                        dma_set_number_of_data DMA_CHANNEL3 12;
                        dma_clear_interrupt_flags_TCIF DMA_CHANNEL5;
                        UART4_CR1_set_SBK;
                        dma_enable_channel DMA_CHANNEL5;
                        dma_enable_channel DMA_CHANNEL3]))
    by (vm_compute; reflexivity).
  split; [exact H1 |]. split; [exact H2 |]. split; [exact H3 |].
  split; [exact H4 |]. split; [exact H5 |]. split; [exact H6 |].
  split; [exact H7 |]. split; [exact H8 |].
  exact (Request_echo_accepted 12 0x11 [1; 2; 3] 3 (replicate 11 0) _ _ [0]
           [0; 0; 0; 0; 0] H1 H2 H3 H4 H5 H6 H7 H8).
Defined.
